(** * Daily inventory alerts: classification, digest and delivery

    A shallow embedding of the scheduled alert job of the Vyapari
    functions (the file that exports [dailyTelegramAlerts]):
    [analyzeInventory], [formatAlertMessage], [getStoreSettings],
    [processStoreAlerts] and the store loop of [dailyTelegramAlerts].

    JavaScript values are embedded as follows.
    - Numbers that the job computes with are integers ([Z]); a number that
      can be [NaN] is an [option Z] with [None] for [NaN].
    - A [Date] is its time value in milliseconds since the epoch; an
      invalid date has time value [NaN].
    - Arrays are lists; [push] appends at the end, [slice] copies,
      [sort] is the stable in-place sort of the language standard.
    - A Firestore collection is a finite map from document id to data.
    - A rejected promise / thrown exception is an explicit result. *)

From Stdlib Require Import ZArith List String Ascii Sorted Permutation Lia DecimalString.
From stdpp Require Import gmap strings list fin_maps.

Open Scope Z_scope.

(** ** JavaScript primitives used by the job *)

Module Js.

(** [Math.ceil(a / b)] for integers [a] and a positive integer [b]. *)
Definition ceilDiv (a b : Z) : Z := - ((- a) / b).

(** [x || d] on a string-valued field: an absent field and the empty
    string are both falsy. *)
Definition strOr (x : option string) (d : string) : string :=
  match x with
  | Some (String c s) => String c s
  | _ => d
  end.

(** [x || 0] on a number-valued field ([0 || 0] is [0]). *)
Definition numOr0 (x : option Z) : Z :=
  match x with
  | Some n => n
  | None => 0
  end.

(** [`${n}`] for an integer. *)
Definition show (n : Z) : string := NilZero.string_of_int (Z.to_int n).

(** [a.slice(0, n)]: a fresh array with the first [n] elements. *)
Definition slice0 {A} (n : nat) (a : list A) : list A := firstn n a.

Section Sort.
Context {A : Type} (cmp : A -> A -> Z).

(** Insert [x] in front of the first element it does not follow. *)
Fixpoint insertBefore (x : A) (l : list A) : list A :=
  match l with
  | [] => [x]
  | y :: l' => if cmp x y <=? 0 then x :: y :: l' else y :: insertBefore x l'
  end.

(** [a.sort(cmp)]: the standard requires a stable sort, so for a
    consistent comparator the result is the one that stable insertion
    yields. *)
Definition sort (a : list A) : list A := foldr insertBefore [] a.
End Sort.

End Js.

(** ** Data model *)

(** The [expiryDate] field of an inventory document, seen through
    [if (item.expiryDate)] and [new Date(item.expiryDate)]. *)
Inductive DateField :=
| DateAbsent            (* missing, null or empty: falsy *)
| DateInvalid           (* truthy, but [new Date] yields an invalid date *)
| DateAt (ms : Z).      (* truthy, [new Date] has time value [ms] *)

Record InventoryItem := {
  item_id : string;
  item_name : option string;
  item_quantity : option Z;
  item_expiryDate : DateField
}.

Record ExpiredEntry := {
  ex_name : string;
  ex_daysExpired : Z;
  ex_expiryDate : Z
}.

Record NearEntry := {
  ne_name : string;
  ne_daysUntilExpiry : Z;
  ne_expiryDate : Z
}.

Record LowEntry := {
  ls_name : string;
  ls_quantity : Z
}.

Record Classification := {
  expired : list ExpiredEntry;
  nearExpiry : list NearEntry;
  lowStock : list LowEntry
}.

(** ** The host: local time zone, date formatting *)

Definition oneDayMs : Z := 1000 * 60 * 60 * 24.

Class Locale := {
  (** offset of the process time zone from UTC, in milliseconds; the zone
      of the functions host (UTC) and the zone of the shops (IST) have no
      daylight saving time, so the offset is fixed *)
  tzOffsetMs : Z;
  (** [toLocaleDateString('en-IN', {day, month, year, timeZone})] *)
  dateDMY : Z -> string;
  (** [toLocaleDateString('en-IN', {day, month, timeZone})] *)
  dateDM : Z -> string
}.

Section Classifier.
Context `{Locale}.

(** [d.setHours(0, 0, 0, 0)]: the start of the local day of [d]. *)
Definition setHours0 (t : Z) : Z := t - (t + tzOffsetMs) mod oneDayMs.

(** [new Date(item.expiryDate)] followed by [setHours(0,0,0,0)]:
    [None] is the invalid date. *)
Definition newDate0 (f : DateField) : option Z :=
  match f with
  | DateAt ms => Some (setHours0 ms)
  | _ => None
  end.

(** [Math.ceil((expiryDate - today) / (1000 * 60 * 60 * 24))]; [None] is [NaN]. *)
Definition daysUntil (today : Z) (expiryDate : option Z) : option Z :=
  match expiryDate with
  | Some e => Some (Js.ceilDiv (e - today) oneDayMs)
  | None => None
  end.

(** The expiry check of the loop body, for a truthy [expiryDate]. With
    [NaN] both comparisons are false. *)
Definition checkExpiry (today expiryWarningDays : Z) (item : InventoryItem)
    (acc : Classification) : Classification :=
  let expiryDate := newDate0 (item_expiryDate item) in
  match expiryDate, daysUntil today expiryDate with
  | Some e, Some daysUntilExpiry =>
      if daysUntilExpiry <=? 0 then
        {| expired := expired acc ++
             [{| ex_name := Js.strOr (item_name item) "Unnamed Item";
                 ex_daysExpired := Z.abs daysUntilExpiry;
                 ex_expiryDate := e |}];
           nearExpiry := nearExpiry acc;
           lowStock := lowStock acc |}
      else if daysUntilExpiry <=? expiryWarningDays then
        {| expired := expired acc;
           nearExpiry := nearExpiry acc ++
             [{| ne_name := Js.strOr (item_name item) "Unnamed Item";
                 ne_daysUntilExpiry := daysUntilExpiry;
                 ne_expiryDate := e |}];
           lowStock := lowStock acc |}
      else acc
  | _, _ => acc
  end.

(** The low stock check of the loop body. *)
Definition checkLowStock (lowStockThreshold : Z) (item : InventoryItem)
    (acc : Classification) : Classification :=
  let quantity := Js.numOr0 (item_quantity item) in
  if quantity <=? lowStockThreshold then
    {| expired := expired acc;
       nearExpiry := nearExpiry acc;
       lowStock := lowStock acc ++
         [{| ls_name := Js.strOr (item_name item) "Unnamed Item";
             ls_quantity := quantity |}] |}
  else acc.

(** One iteration of [for (const item of inventory)]. *)
Definition analyzeItem (today expiryWarningDays lowStockThreshold : Z)
    (acc : Classification) (item : InventoryItem) : Classification :=
  let acc :=
    match item_expiryDate item with
    | DateAbsent => acc
    | _ => checkExpiry today expiryWarningDays item acc
    end in
  checkLowStock lowStockThreshold item acc.

(** The three arrays when the loop is over, before they are sorted. *)
Definition classifyAll (today expiryWarningDays lowStockThreshold : Z)
    (inventory : list InventoryItem) : Classification :=
  fold_left (analyzeItem today expiryWarningDays lowStockThreshold) inventory
    {| expired := []; nearExpiry := []; lowStock := [] |}.

(** [analyzeInventory]; [now] is the time value of [new Date()]. *)
Definition analyzeInventory (now : Z) (inventory : list InventoryItem)
    (expiryWarningDays lowStockThreshold : Z) : Classification :=
  let today := setHours0 now in
  let c := classifyAll today expiryWarningDays lowStockThreshold inventory in
  {| expired := Js.sort (fun a b => ex_daysExpired b - ex_daysExpired a) (expired c);
     nearExpiry := Js.sort (fun a b => ne_daysUntilExpiry a - ne_daysUntilExpiry b) (nearExpiry c);
     lowStock := Js.sort (fun a b => ls_quantity a - ls_quantity b) (lowStock c) |}.

End Classifier.

(** ** The message composer *)

(** The composer is handed its three arrays by reference. Its body is
    written over [Arr], which threads the arrays through every access, so
    what the body does to them is part of its result. The entries
    themselves are only read. *)
Definition Arr (A : Type) : Type := Classification -> A * Classification.

Definition arr_ret {A} (a : A) : Arr A := fun s => (a, s).

Definition arr_bind {A B} (c : Arr A) (k : A -> Arr B) : Arr B :=
  fun s => let '(a, s') := c s in k a s'.

Notation "'let*' x ':=' c 'in' k" := (arr_bind c (fun x => k))
  (at level 10, x name, c at level 100, k at level 200).

(** [expired.length], [expired.slice(0, n)] and their siblings: none of
    them writes to the array. *)
Definition expired_length : Arr nat := fun s => (length (expired s), s).
Definition nearExpiry_length : Arr nat := fun s => (length (nearExpiry s), s).
Definition lowStock_length : Arr nat := fun s => (length (lowStock s), s).
Definition expired_slice0 (n : nat) : Arr (list ExpiredEntry) :=
  fun s => (Js.slice0 n (expired s), s).
Definition nearExpiry_slice0 (n : nat) : Arr (list NearEntry) :=
  fun s => (Js.slice0 n (nearExpiry s), s).
Definition lowStock_slice0 (n : nat) : Arr (list LowEntry) :=
  fun s => (Js.slice0 n (lowStock s), s).

Definition nl : string := String (ascii_of_nat 10) EmptyString.

(** [day${n > 1 ? 's' : ''}] *)
Definition plural (n : Z) : string := if 1 <? n then "s" else EmptyString.

Definition expiredText (item : ExpiredEntry) : string :=
  if ex_daysExpired item =? 0 then "Expired today"
  else "Expired " +:+ Js.show (ex_daysExpired item) +:+ " day"
         +:+ plural (ex_daysExpired item) +:+ " ago".

Definition nearEmoji (item : NearEntry) : string :=
  if ne_daysUntilExpiry item =? 1 then "🔴"
  else if ne_daysUntilExpiry item <=? 3 then "🟠" else "🟡".

Definition lowEmoji (item : LowEntry) : string :=
  if ls_quantity item =? 0 then "🔴" else "⚠️".

Definition quantityText (item : LowEntry) : string :=
  if ls_quantity item =? 0 then "Out of stock"
  else "Only " +:+ Js.show (ls_quantity item) +:+ " left".

(** [_...and ${remaining} more items_\n] *)
Definition moreLine (remaining : Z) : string :=
  "_...and " +:+ Js.show remaining +:+ " more items_" +:+ nl.

Section Composer.
Context `{Locale}.

(** The lines that the three [for (const item of itemsToShow)] loops add. *)
Definition expiredLine (item : ExpiredEntry) : string :=
  "🔴 " +:+ ex_name item +:+ " - " +:+ expiredText item +:+ nl.

Definition nearLine (item : NearEntry) : string :=
  nearEmoji item +:+ " " +:+ ne_name item +:+ " - Expires in "
    +:+ Js.show (ne_daysUntilExpiry item) +:+ " day"
    +:+ plural (ne_daysUntilExpiry item)
    +:+ " (" +:+ dateDM (ne_expiryDate item) +:+ ")" +:+ nl.

Definition lowLine (item : LowEntry) : string :=
  lowEmoji item +:+ " " +:+ ls_name item +:+ " - " +:+ quantityText item +:+ nl.

(** [for (const item of itemsToShow) message += line(item)] *)
Definition addLines {A} (line : A -> string) (itemsToShow : list A)
    (message : string) : string :=
  fold_left (fun message item => message +:+ line item) itemsToShow message.

(** [formatAlertMessage], over the arrays it is handed; [now] is the time
    value of the [new Date()] it reads. *)
Definition formatAlertMessageArr (now : Z) (storeName : string) : Arr string :=
  let date := dateDMY now in
  let message :=
    "🚨 *Daily Inventory Alert*" +:+ nl +:+ storeName +:+ " - " +:+ date
      +:+ nl +:+ nl in
  let* n := expired_length in
  let* message :=
    (if (0 <? n)%nat then
       let message :=
         message +:+ ("❌ *Expired Items (" +:+ Js.show (Z.of_nat n) +:+ "):*" +:+ nl) in
       let* itemsToShow := expired_slice0 10 in
       let message := addLines expiredLine itemsToShow message in
       let message := if (10 <? n)%nat then message +:+ moreLine (Z.of_nat n - 10) else message in
       arr_ret (message +:+ nl)
     else arr_ret message) in
  let* n := nearExpiry_length in
  let* message :=
    (if (0 <? n)%nat then
       let message :=
         message +:+ ("📅 *Expiring Soon (" +:+ Js.show (Z.of_nat n) +:+ "):*" +:+ nl) in
       let* itemsToShow := nearExpiry_slice0 10 in
       let message := addLines nearLine itemsToShow message in
       let message := if (10 <? n)%nat then message +:+ moreLine (Z.of_nat n - 10) else message in
       arr_ret (message +:+ nl)
     else arr_ret message) in
  let* n := lowStock_length in
  let* message :=
    (if (0 <? n)%nat then
       let message :=
         message +:+ ("📦 *Low Stock (" +:+ Js.show (Z.of_nat n) +:+ "):*" +:+ nl) in
       let* itemsToShow := lowStock_slice0 10 in
       let message := addLines lowLine itemsToShow message in
       let message := if (10 <? n)%nat then message +:+ moreLine (Z.of_nat n - 10) else message in
       arr_ret (message +:+ nl)
     else arr_ret message) in
  arr_ret (message +:+ "👉 [Open Dashboard](https://vyaparcopilot.web.app)").

(** The message that [formatAlertMessage(storeName, expired, nearExpiry,
    lowStock)] returns. *)
Definition formatAlertMessage (now : Z) (storeName : string)
    (expired : list ExpiredEntry) (nearExpiry : list NearEntry)
    (lowStock : list LowEntry) : string :=
  fst (formatAlertMessageArr now storeName
         {| expired := expired; nearExpiry := nearExpiry; lowStock := lowStock |}).

End Composer.

(** ** Settings *)

Record Settings := {
  lowStockThreshold : Z;
  expiryWarningDays : Z;
  enableExpiryAlerts : bool;
  enableLowStockAlerts : bool
}.

(** The stored settings document: any field may be missing. *)
Record SettingsDoc := {
  cfg_lowStockThreshold : option Z;
  cfg_expiryWarningDays : option Z;
  cfg_enableExpiryAlerts : option bool;
  cfg_enableLowStockAlerts : option bool
}.

Definition defaults : Settings :=
  {| lowStockThreshold := 5;
     expiryWarningDays := 7;
     enableExpiryAlerts := true;
     enableLowStockAlerts := true |}.

(** [{ ...defaults, ...settingsDoc.data() }] *)
Definition overlay (d : Settings) (doc : SettingsDoc) : Settings :=
  {| lowStockThreshold := default (lowStockThreshold d) (cfg_lowStockThreshold doc);
     expiryWarningDays := default (expiryWarningDays d) (cfg_expiryWarningDays doc);
     enableExpiryAlerts := default (enableExpiryAlerts d) (cfg_enableExpiryAlerts doc);
     enableLowStockAlerts := default (enableLowStockAlerts d) (cfg_enableLowStockAlerts doc) |}.

(** ** Subscribers, the gateway and the store documents *)

Record Subscriber := {
  chatId : Z;
  telegramUserId : Z;
  lastAlertSent : option Z
}.

(** What [sendMessage] resolves to: the fields the job looks at. *)
Record SendResult := {
  success : bool;
  blocked : bool
}.

Inductive SendOutcome :=
| SendReturns (result : SendResult)
| SendThrows.

(** The world outside the job: the gateway, the clock and the passing of
    time while the job waits. [sendMessage] lives in the bot library and
    is used here through this interface only. *)
Class Host (World : Type) := {
  sendMessage : Z -> string -> World -> SendOutcome * World;
  (** [new Date()], and the server time of a write *)
  clock : World -> Z;
  (** [await new Promise(resolve => setTimeout(resolve, ms))] *)
  sleep : Z -> World -> World;
  (** waiting for a Firestore call to settle *)
  settle : World -> World;
  (** whether the write awaited in this state is rejected (the document
      was removed meanwhile, the service is unavailable, ...) *)
  writeRejects : World -> bool
}.

(** One store document with its sub-collections, and which of the reads
    of this run are rejected. *)
Record StoreSnapshot := {
  st_id : string;
  st_name : option string;
  st_users : gmap string Subscriber;
  st_config : option SettingsDoc;
  st_inventory : list InventoryItem;
  st_usersGetFails : bool;
  st_configGetFails : bool;
  st_inventoryGetFails : bool
}.

(** [getStoreSettings]: a rejected read is caught and logged. *)
Definition getStoreSettings (store : StoreSnapshot) : Settings :=
  if st_configGetFails store then defaults
  else match st_config store with
       | Some doc => overlay defaults doc
       | None => defaults
       end.

(** [ref.update({ lastAlertSent: serverTimestamp() })] once the service
    takes the write: [None] when the document is not there, which rejects
    the promise as well. *)
Definition refUpdate (id : string) (ts : Z) (users : gmap string Subscriber)
    : option (gmap string Subscriber) :=
  match users !! id with
  | Some s =>
      Some (<[id := {| chatId := chatId s;
                       telegramUserId := telegramUserId s;
                       lastAlertSent := Some ts |}]> users)
  | None => None
  end.

(** [ref.delete()] *)
Definition refDelete (id : string) (users : gmap string Subscriber)
    : gmap string Subscriber :=
  delete id users.

(** What one pass of the subscriber loop did to the subscriber's record. *)
Inductive Effect :=
| Updated (ts : Z)
| Deleted
| WriteFailed
| Untouched.

Record Delivery := {
  dl_id : string;
  dl_chatId : Z;
  dl_outcome : SendOutcome;
  dl_effect : Effect
}.

Record Dispatch (World : Type) := {
  ds_users : gmap string Subscriber;
  ds_world : World;
  ds_alertsSent : nat;
  ds_log : list Delivery
}.
Arguments ds_users {World}.
Arguments ds_world {World}.
Arguments ds_alertsSent {World}.
Arguments ds_log {World}.

Inductive Completion :=
| Returns (alerts : nat)
| Throws.

(** What one call of [processStoreAlerts] did. *)
Record StoreRun (World : Type) := {
  run_completion : Completion;
  run_classified : option Classification;
  run_message : option string;
  run_deliveries : list Delivery;
  run_users : gmap string Subscriber;
  run_world : World
}.
Arguments run_completion {World}.
Arguments run_classified {World}.
Arguments run_message {World}.
Arguments run_deliveries {World}.
Arguments run_users {World}.
Arguments run_world {World}.

Record RunStats := {
  totalAlertsSent : nat;
  successCount : nat;
  failureCount : nat
}.

Record RunState (World : Type) := {
  rs_stats : RunStats;
  rs_world : World;
  rs_runs : list (StoreSnapshot * StoreRun World)
}.
Arguments rs_stats {World}.
Arguments rs_world {World}.
Arguments rs_runs {World}.

Inductive JobResult (World : Type) :=
| JobReturns (st : RunState World)
| JobThrows.
Arguments JobReturns {World}.
Arguments JobThrows {World}.

Record Firestore := {
  db_stores : list StoreSnapshot;
  db_storesGetFails : bool
}.

Section Pipeline.
Context `{Locale} {World : Type} `{Host World}.

(** One pass of [for (const subscriberDoc of subscribersSnapshot.docs)]:
    the [try] block and its [catch]. A rejected [update()] or [delete()]
    leaves the [try] block before the count and before the pause. *)
Definition deliver (message : string) (st : Dispatch World)
    (doc : string * Subscriber) : Dispatch World :=
  let '(id, subscriber) := doc in
  let chat := chatId subscriber in
  let '(outcome, w) := sendMessage chat message (ds_world st) in
  let entry e :=
    {| dl_id := id; dl_chatId := chat; dl_outcome := outcome; dl_effect := e |} in
  let caught w e :=
    {| ds_users := ds_users st;
       ds_world := w;
       ds_alertsSent := ds_alertsSent st;
       ds_log := ds_log st ++ [entry e] |} in
  match outcome with
  | SendReturns result =>
      if success result then
        let ts := clock w in
        if writeRejects w then caught (settle w) WriteFailed
        else
          match refUpdate id ts (ds_users st) with
          | Some users' =>
              {| ds_users := users';
                 ds_world := sleep 100 (settle w);
                 ds_alertsSent := S (ds_alertsSent st);
                 ds_log := ds_log st ++ [entry (Updated ts)] |}
          | None => caught (settle w) WriteFailed
          end
      else if blocked result then
        if writeRejects w then caught (settle w) WriteFailed
        else
          {| ds_users := refDelete id (ds_users st);
             ds_world := sleep 100 (settle w);
             ds_alertsSent := ds_alertsSent st;
             ds_log := ds_log st ++ [entry Deleted] |}
      else
        {| ds_users := ds_users st;
           ds_world := sleep 100 w;
           ds_alertsSent := ds_alertsSent st;
           ds_log := ds_log st ++ [entry Untouched] |}
  | SendThrows => caught w Untouched
  end.

Definition sendToSubscribers (message : string)
    (docs : list (string * Subscriber)) (st : Dispatch World) : Dispatch World :=
  fold_left (deliver message) docs st.

Definition noAlerts (c : Classification) : bool :=
  (length (expired c) =? 0)%nat && (length (nearExpiry c) =? 0)%nat
    && (length (lowStock c) =? 0)%nat.

(** [processStoreAlerts(storeDoc)] *)
Definition processStoreAlerts (store : StoreSnapshot) (w : World) : StoreRun World :=
  let storeName := Js.strOr (st_name store) "Your Store" in
  let stop c cls w :=
    {| run_completion := c; run_classified := cls; run_message := None;
       run_deliveries := []; run_users := st_users store; run_world := w |} in
  let w := settle w in
  if st_usersGetFails store then stop Throws None w
  else
    let docs := map_to_list (st_users store) in
    if (length docs =? 0)%nat then stop (Returns 0) None w
    else
      let w := settle w in
      let settings := getStoreSettings store in
      let w := settle w in
      if st_inventoryGetFails store then stop Throws None w
      else
        let inventory := st_inventory store in
        if (length inventory =? 0)%nat then stop (Returns 0) None w
        else
          let c := analyzeInventory (clock w) inventory
                     (expiryWarningDays settings) (lowStockThreshold settings) in
          if noAlerts c then stop (Returns 0) (Some c) w
          else
            let message :=
              formatAlertMessage (clock w) storeName
                (expired c) (nearExpiry c) (lowStock c) in
            let d := sendToSubscribers message docs
                       {| ds_users := st_users store; ds_world := w;
                          ds_alertsSent := 0; ds_log := [] |} in
            {| run_completion := Returns (ds_alertsSent d);
               run_classified := Some c;
               run_message := Some message;
               run_deliveries := ds_log d;
               run_users := ds_users d;
               run_world := ds_world d |}.

(** One pass of [for (const storeDoc of storesSnapshot.docs)]. *)
Definition processStore (st : RunState World) (store : StoreSnapshot)
    : RunState World :=
  let r := processStoreAlerts store (rs_world st) in
  match run_completion r with
  | Returns alerts =>
      {| rs_stats :=
           if (0 <? alerts)%nat then
             {| totalAlertsSent := totalAlertsSent (rs_stats st) + alerts;
                successCount := S (successCount (rs_stats st));
                failureCount := failureCount (rs_stats st) |}
           else rs_stats st;
         rs_world := sleep 1000 (run_world r);
         rs_runs := rs_runs st ++ [(store, r)] |}
  | Throws =>
      {| rs_stats :=
           {| totalAlertsSent := totalAlertsSent (rs_stats st);
              successCount := successCount (rs_stats st);
              failureCount := S (failureCount (rs_stats st)) |};
         rs_world := run_world r;
         rs_runs := rs_runs st ++ [(store, r)] |}
  end.

(** The handler of [dailyTelegramAlerts]: a rejected read of the store
    list is rethrown by the outer [catch]. *)
Definition dailyTelegramAlerts (db : Firestore) (w : World) : JobResult World :=
  let w := settle w in
  if db_storesGetFails db then JobThrows
  else
    JobReturns
      (fold_left processStore (db_stores db)
         {| rs_stats := {| totalAlertsSent := 0; successCount := 0; failureCount := 0 |};
            rs_world := w;
            rs_runs := [] |}).

End Pipeline.

(** ** Vocabulary of the specification *)

(** Ascending order of a key, as a relation on entries. *)
Definition keyLe {A} (key : A -> Z) (a b : A) : Prop := key a <= key b.

Section ClassifierSpec.
Context `{Locale}.

(** Days until expiry when the item's expiry date is taken as it is. *)
Definition rawDays (today ms : Z) : Z := Js.ceilDiv (ms - today) oneDayMs.

(** Days until expiry when the item's expiry date is first moved to the
    start of its local day. *)
Definition wholeDays (today ms : Z) : Z := Js.ceilDiv (setHours0 ms - today) oneDayMs.

(** The rules below follow the words of the specification, not the code;
    the theorems compare [analyzeInventory] with them.

    Expired, for a given reading [days] of days-until-expiry: at most zero
    days, with [daysExpired = abs days]. *)
Definition specExpired (days : Z -> Z) (item : InventoryItem) : option ExpiredEntry :=
  match item_expiryDate item with
  | DateAt ms =>
      if decide (days ms <= 0) then
        Some {| ex_name := Js.strOr (item_name item) "Unnamed Item";
                ex_daysExpired := Z.abs (days ms);
                ex_expiryDate := setHours0 ms |}
      else None
  | _ => None
  end.

(** Near expiry: more than zero and at most [expiryWarningDays] days. *)
Definition specNearExpiry (days : Z -> Z) (expiryWarningDays : Z) (item : InventoryItem)
    : option NearEntry :=
  match item_expiryDate item with
  | DateAt ms =>
      if decide (0 < days ms <= expiryWarningDays) then
        Some {| ne_name := Js.strOr (item_name item) "Unnamed Item";
                ne_daysUntilExpiry := days ms;
                ne_expiryDate := setHours0 ms |}
      else None
  | _ => None
  end.

(** Low stock: a quantity (zero when absent) of at most
    [lowStockThreshold]. *)
Definition specLowStock (lowStockThreshold : Z) (item : InventoryItem) : option LowEntry :=
  if decide (Js.numOr0 (item_quantity item) <= lowStockThreshold) then
    Some {| ls_name := Js.strOr (item_name item) "Unnamed Item";
            ls_quantity := Js.numOr0 (item_quantity item) |}
  else None.

(** The low stock entry of an item, read off the item's own fields: its
    name, or [Unnamed Item] when it has none, and its quantity, or zero
    when it has none. *)
Definition lowStockEntry (item : InventoryItem) : LowEntry :=
  {| ls_name := match item_name item with
                | None | Some EmptyString => "Unnamed Item"
                | Some name => name
                end;
     ls_quantity := default 0 (item_quantity item) |}.

(** The expiry rule as a statement about a whole snapshot: the expired and
    near-expiry lists hold, up to order, one entry for every item the rule
    selects and nothing else. *)
Definition expiryRule (days : Z -> Z -> Z) (now : Z)
    (inventory : list InventoryItem) (expiryWarningDays lowStockThreshold : Z) : Prop :=
  let today := setHours0 now in
  let r := analyzeInventory now inventory expiryWarningDays lowStockThreshold in
  expired r ≡ₚ omap (specExpired (days today)) inventory ∧
  nearExpiry r ≡ₚ omap (specNearExpiry (days today) expiryWarningDays) inventory.

End ClassifierSpec.

(** The same item with another expiry date field. *)
Definition withDate (f : InventoryItem -> DateField) (item : InventoryItem) : InventoryItem :=
  {| item_id := item_id item;
     item_name := item_name item;
     item_quantity := item_quantity item;
     item_expiryDate := f item |}.

Global Instance DateField_eq_dec : EqDecision DateField.
Proof. solve_decision. Defined.

(** A host in UTC whose date formatter prints the day number; it stands
    in for the platform's formatter in examples. *)
Definition utc : Locale :=
  {| tzOffsetMs := 0;
     dateDMY := fun ms => Js.show (ms / oneDayMs);
     dateDM := fun ms => Js.show (ms / oneDayMs) |}.

(** Twelve hours, in milliseconds. *)
Definition noon : Z := 12 * 60 * 60 * 1000.

Definition item (name : string) (quantity : Z) (date : DateField) : InventoryItem :=
  {| item_id := name; item_name := Some name;
     item_quantity := Some quantity; item_expiryDate := date |}.

(** ** Vocabulary for the digest *)

(** A text as the concatenation of its lines. *)
Definition joinLines (lines : list string) : string :=
  foldr String.append EmptyString lines.

(** The texts below are the ones the specification and the template
    literals of the source give, written out on their own: they use none
    of the composer's definitions. *)

(** The line feed. *)
Definition lineEnd : string := String "010"%char EmptyString.

(** A whole number in decimal notation. *)
Definition decimal (n : Z) : string := NilZero.string_of_int (Z.to_int n).

Definition expiredHeading (n : nat) : string :=
  "❌ *Expired Items (" +:+ decimal (Z.of_nat n) +:+ "):*" +:+ lineEnd.

Definition nearHeading (n : nat) : string :=
  "📅 *Expiring Soon (" +:+ decimal (Z.of_nat n) +:+ "):*" +:+ lineEnd.

Definition lowHeading (n : nat) : string :=
  "📦 *Low Stock (" +:+ decimal (Z.of_nat n) +:+ "):*" +:+ lineEnd.

Definition footer : string := "👉 [Open Dashboard](https://vyaparcopilot.web.app)".

(** The truncation line of a section: it states how many entries of the
    list are not shown. *)
Definition truncationLine (remaining : Z) : string :=
  "_...and " +:+ decimal remaining +:+ " more items_" +:+ lineEnd.

(** The line of an expired entry. *)
Definition expiredEntryLine (e : ExpiredEntry) : string :=
  "🔴 " +:+ ex_name e +:+ " - "
    +:+ (if decide (ex_daysExpired e = 0) then "Expired today"
         else if decide (1 < ex_daysExpired e)
              then "Expired " +:+ decimal (ex_daysExpired e) +:+ " days ago"
              else "Expired " +:+ decimal (ex_daysExpired e) +:+ " day ago")
    +:+ lineEnd.

(** The line of a low stock entry. *)
Definition lowEntryLine (e : LowEntry) : string :=
  if decide (ls_quantity e = 0)
  then "🔴 " +:+ ls_name e +:+ " - Out of stock" +:+ lineEnd
  else "⚠️ " +:+ ls_name e +:+ " - Only " +:+ decimal (ls_quantity e) +:+ " left"
         +:+ lineEnd.

(** The lines of one category section, in the words of the specification:
    nothing for an empty list; heading, one line per entry and a blank line
    for at most ten entries; heading, the lines of the first ten entries,
    one truncation line with the count of the others, and a blank line for
    more than ten. *)
Inductive SectionShape {A} (heading : nat -> string) (line : A -> string)
    (entries : list A) : list string -> Prop :=
| NoSection :
    entries = [] ->
    SectionShape heading line entries []
| WholeSection :
    (0 < length entries <= 10)%nat ->
    SectionShape heading line entries
      ([heading (length entries)] ++ map line entries ++ [lineEnd])
| TruncatedSection (shown others : list A) :
    entries = shown ++ others ->
    length shown = 10%nat ->
    (0 < length others)%nat ->
    SectionShape heading line entries
      ([heading (length entries)] ++ map line shown
         ++ [truncationLine (Z.of_nat (length entries) - 10)] ++ [lineEnd]).

(** The text that the composer adds for one category. *)
Definition sectionText {A} (heading : nat -> string) (line : A -> string)
    (entries : list A) : string :=
  if (0 <? length entries)%nat then
    heading (length entries)
      +:+ joinLines (map line (Js.slice0 10 entries))
      +:+ (if (10 <? length entries)%nat
           then moreLine (Z.of_nat (length entries) - 10) else EmptyString)
      +:+ nl
  else EmptyString.

Section ComposerSpec.
Context `{Locale}.

Definition title (now : Z) (storeName : string) : string :=
  "🚨 *Daily Inventory Alert*" +:+ lineEnd +:+ storeName +:+ " - " +:+ dateDMY now
    +:+ lineEnd +:+ lineEnd.

(** The line of a near-expiry entry. *)
Definition nearEntryLine (e : NearEntry) : string :=
  (if decide (ne_daysUntilExpiry e = 1) then "🔴"
   else if decide (ne_daysUntilExpiry e <= 3) then "🟠" else "🟡")
    +:+ " " +:+ ne_name e +:+ " - Expires in " +:+ decimal (ne_daysUntilExpiry e)
    +:+ (if decide (1 < ne_daysUntilExpiry e) then " days" else " day")
    +:+ " (" +:+ dateDM (ne_expiryDate e) +:+ ")" +:+ lineEnd.

End ComposerSpec.

(** ** Vocabulary for delivery and for the run *)

Global Instance Completion_eq_dec : EqDecision Completion.
Proof. solve_decision. Defined.

(** The record of a subscriber after [lastAlertSent] is set to [ts]. *)
Definition stamped (ts : Z) (s : Subscriber) : Subscriber :=
  {| chatId := chatId s; telegramUserId := telegramUserId s; lastAlertSent := Some ts |}.

(** What the recorded effect of a delivery makes of the record [before]. *)
Definition effectOn (d : Delivery) (before : Subscriber) : option Subscriber :=
  match dl_effect d with
  | Updated ts => Some (stamped ts before)
  | Deleted => None
  | WriteFailed | Untouched => Some before
  end.

(** The delivery wrote [lastAlertSent]. *)
Definition isUpdate (d : Delivery) : bool :=
  match dl_effect d with
  | Updated _ => true
  | _ => false
  end.

(** The write of the delivery was rejected. *)
Definition isRejected (d : Delivery) : bool :=
  match dl_effect d with
  | WriteFailed => true
  | _ => false
  end.

(** The answer of the gateway is one of: success, recipient unreachable,
    failure; it does not carry both flags. *)
Definition oneAnswer (d : Delivery) : bool :=
  match dl_outcome d with
  | SendReturns res => negb (success res && blocked res)
  | SendThrows => true
  end.

(** What becomes of the record after a send with the given outcome, when
    the write that the outcome calls for is rejected or not and the clock
    reads [now]. *)
Definition ruledEffect (rejected : bool) (now : Z) (outcome : SendOutcome) : Effect :=
  match outcome with
  | SendReturns res =>
      if success res then (if rejected then WriteFailed else Updated now)
      else if blocked res then (if rejected then WriteFailed else Deleted)
      else Untouched
  | SendThrows => Untouched
  end.

(** The effect of a delivery is one that the rule allows for its
    outcome. *)
Definition effectAgrees (d : Delivery) : Prop :=
  ∃ rejected now, dl_effect d = ruledEffect rejected now (dl_outcome d).

Section DispatchSpec.
Context {World : Type}.

(** The send to subscriber [id] in this run returned success. *)
Definition sendSucceeded (r : StoreRun World) (id : string) : Prop :=
  ∃ d res, d ∈ run_deliveries r ∧ dl_id d = id ∧
           dl_outcome d = SendReturns res ∧ success res = true.

(** The gateway reported the recipient of subscriber [id] as permanently
    unreachable. *)
Definition reportedBlocked (r : StoreRun World) (id : string) : Prop :=
  ∃ d res, d ∈ run_deliveries r ∧ dl_id d = id ∧
           dl_outcome d = SendReturns res ∧ blocked res = true.

(** The run wrote [lastAlertSent] of subscriber [id]. *)
Definition timestampUpdated (r : StoreRun World) (id : string) : Prop :=
  ∃ d ts, d ∈ run_deliveries r ∧ dl_id d = id ∧ dl_effect d = Updated ts.

(** The write to the record of subscriber [id] was rejected. *)
Definition writeRejected (r : StoreRun World) (id : string) : Prop :=
  ∃ d, d ∈ run_deliveries r ∧ dl_id d = id ∧ dl_effect d = WriteFailed.

(** Every answer of the gateway in this call is one of the three. *)
Definition oneAnswerEach (r : StoreRun World) : bool :=
  forallb oneAnswer (run_deliveries r).

(** The delivery rule for one store and one call of [processStoreAlerts],
    for given conditions [updateWhen] and [deleteWhen] under which a record
    gets a new [lastAlertSent] and is deleted; in every other case the
    record is as it was. *)
Definition deliveryRule (updateWhen deleteWhen : StoreRun World -> string -> Prop)
    (store : StoreSnapshot) (r : StoreRun World) : Prop :=
  ∀ id sub, st_users store !! id = Some sub ->
    (timestampUpdated r id ↔ updateWhen r id) ∧
    (run_users r !! id = None ↔ deleteWhen r id) ∧
    (∀ d ts, d ∈ run_deliveries r -> dl_id d = id -> dl_effect d = Updated ts ->
             run_users r !! id = Some (stamped ts sub)) ∧
    (¬ updateWhen r id -> ¬ deleteWhen r id -> run_users r !! id = Some sub).

(** The conditions as the specification words them. *)
Definition updateIfSent (r : StoreRun World) (id : string) : Prop :=
  sendSucceeded r id.

Definition deleteIfBlocked (r : StoreRun World) (id : string) : Prop :=
  reportedBlocked r id.

(** The conditions as the loop body has them: the write that follows the
    send can be rejected, and then the [catch] leaves the record alone. *)
Definition updateIfWritten (r : StoreRun World) (id : string) : Prop :=
  sendSucceeded r id ∧ ¬ writeRejected r id.

Definition deleteIfWritten (r : StoreRun World) (id : string) : Prop :=
  reportedBlocked r id ∧ ¬ writeRejected r id.

Context `{Host World}.

(** The world after one pass of the subscriber loop, given the world in
    which the send returned: the write, when one was made, and the pause,
    when the pass got that far. *)
Definition worldAfter (d : Delivery) (w : World) : World :=
  match dl_effect d with
  | Updated _ | Deleted => sleep 100 (settle w)
  | WriteFailed => settle w
  | Untouched =>
      match dl_outcome d with
      | SendReturns _ => sleep 100 w
      | SendThrows => w
      end
  end.

(** The deliveries of a call, replayed against the host from the world [w]
    on: each outcome is the answer of the gateway to the send of [message]
    to the chat of the delivery, each effect is the one the rule gives for
    that answer, for the fate of the write and for the reading of the clock
    once the send has returned. *)
Inductive Replays (message : string) : World -> list Delivery -> World -> Prop :=
| ReplaysNone w :
    Replays message w [] w
| ReplaysNext w w1 d ds w' :
    sendMessage (dl_chatId d) message w = (dl_outcome d, w1) ->
    dl_effect d = ruledEffect (writeRejects w1) (clock w1) (dl_outcome d) ->
    Replays message (worldAfter d w1) ds w' ->
    Replays message w (d :: ds) w'.

(** Alerts that a call of [processStoreAlerts] hands to the store loop. *)
Definition alertsOf (r : StoreRun World) : nat :=
  match run_completion r with
  | Returns alerts => alerts
  | Throws => 0%nat
  end.

(** The statistics of a run, counted from what happened store by store. *)
Definition tally (runs : list (StoreSnapshot * StoreRun World)) : RunStats :=
  {| totalAlertsSent := sum_list (map (fun p => alertsOf (snd p)) runs);
     successCount := length (filter (fun p => (0 < alertsOf (snd p))%nat) runs);
     failureCount := length (filter (fun p => run_completion (snd p) = Throws) runs) |}.

End DispatchSpec.

(** The same store with another settings document. *)
Definition withConfig (doc : option SettingsDoc) (store : StoreSnapshot) : StoreSnapshot :=
  {| st_id := st_id store;
     st_name := st_name store;
     st_users := st_users store;
     st_config := doc;
     st_inventory := st_inventory store;
     st_usersGetFails := st_usersGetFails store;
     st_configGetFails := st_configGetFails store;
     st_inventoryGetFails := st_inventoryGetFails store |}.

(** *** Hosts and stores for examples *)

(** A gateway that answers by chat id: 1 succeeds, 2 is blocked, 3 fails,
    4 succeeds and is flagged blocked as well, any other id throws. The
    world is the number of sends so far and the clock of the host. *)
Definition demoSend (chat : Z) (message : string) (w : nat * Z) : SendOutcome * (nat * Z) :=
  let w' := (S (fst w), snd w) in
  if chat =? 1 then (SendReturns {| success := true; blocked := false |}, w')
  else if chat =? 2 then (SendReturns {| success := false; blocked := true |}, w')
  else if chat =? 3 then (SendReturns {| success := false; blocked := false |}, w')
  else if chat =? 4 then (SendReturns {| success := true; blocked := true |}, w')
  else (SendThrows, w').

Definition demoHost : Host (nat * Z) :=
  {| sendMessage := demoSend;
     clock := snd;
     sleep := fun ms w => (fst w, snd w + ms);
     settle := fun w => (fst w, snd w + 1);
     writeRejects := fun _ => false |}.

(** The same host when the subscriber records cannot be written. *)
Definition readOnlyHost : Host (nat * Z) :=
  {| sendMessage := demoSend;
     clock := snd;
     sleep := fun ms w => (fst w, snd w + ms);
     settle := fun w => (fst w, snd w + 1);
     writeRejects := fun _ => true |}.

Definition subscriber (chat : Z) : Subscriber :=
  {| chatId := chat; telegramUserId := chat; lastAlertSent := None |}.

Definition demoStore (id : string) (users : gmap string Subscriber)
    (inventory : list InventoryItem) : StoreSnapshot :=
  {| st_id := id; st_name := Some id; st_users := users; st_config := None;
     st_inventory := inventory;
     st_usersGetFails := false; st_configGetFails := false;
     st_inventoryGetFails := false |}.

(** A store whose read of the inventory is rejected. *)
Definition brokenStore (id : string) (users : gmap string Subscriber) : StoreSnapshot :=
  {| st_id := id; st_name := Some id; st_users := users; st_config := None;
     st_inventory := [];
     st_usersGetFails := false; st_configGetFails := false;
     st_inventoryGetFails := true |}.

Definition demoUsers : gmap string Subscriber :=
  <["u1" := subscriber 1]> (<["u2" := subscriber 2]> (<["u3" := subscriber 3]>
    (<["u4" := subscriber 4]> (<["u5" := subscriber 5]> ∅)))).

(** A shop with one item that is low on stock. *)
Definition demoShop : StoreSnapshot :=
  demoStore "shop" demoUsers [item "Milk" 2 DateAbsent].

(** A shop with nothing to report. *)
Definition quietShop : StoreSnapshot :=
  demoStore "quiet" demoUsers [item "Rice" 50 DateAbsent].

Definition demoDb : Firestore :=
  {| db_stores := [brokenStore "broken" demoUsers; demoShop; quietShop];
     db_storesGetFails := false |}.

(** A shop without subscribers. *)
Definition lonelyShop : StoreSnapshot :=
  demoStore "lonely" ∅ [item "Milk" 2 DateAbsent].

Definition demoStart : nat * Z := (0%nat, 0).

(** The run over [demoDb], and in it the call for [demoShop]. *)
Definition demoRun : RunState (nat * Z) :=
  match @dailyTelegramAlerts utc _ demoHost demoDb demoStart with
  | JobReturns st => st
  | JobThrows =>
      {| rs_stats := {| totalAlertsSent := 0; successCount := 0; failureCount := 0 |};
         rs_world := demoStart; rs_runs := [] |}
  end.

Definition demoShopRun : StoreRun (nat * Z) :=
  @processStoreAlerts utc _ demoHost demoShop (0%nat, 4).

(** Subscribers whose sends get one of the three answers, or throw. *)
Definition plainUsers : gmap string Subscriber :=
  <["u1" := subscriber 1]> (<["u2" := subscriber 2]> (<["u3" := subscriber 3]>
    (<["u5" := subscriber 5]> ∅))).

Definition plainShop : StoreSnapshot :=
  demoStore "plain" plainUsers [item "Milk" 2 DateAbsent].

Definition plainDb : Firestore :=
  {| db_stores := [plainShop]; db_storesGetFails := false |}.

(** The run over [plainDb] on a host, and in it the call for [plainShop]. *)
Definition plainRun (host : Host (nat * Z)) : RunState (nat * Z) :=
  match @dailyTelegramAlerts utc _ host plainDb demoStart with
  | JobReturns st => st
  | JobThrows =>
      {| rs_stats := {| totalAlertsSent := 0; successCount := 0; failureCount := 0 |};
         rs_world := demoStart; rs_runs := [] |}
  end.

Definition plainShopRun (host : Host (nat * Z)) : StoreRun (nat * Z) :=
  @processStoreAlerts utc _ host plainShop (0%nat, 1).

(** ** Further vocabulary *)

Section CalendarSpec.
Context `{Locale}.

(** The number of the local day that holds the instant [t]. *)
Definition localDay (t : Z) : Z := (t + tzOffsetMs) / oneDayMs.

End CalendarSpec.

(** The send of a delivery returned success. *)
Definition sentOk (d : Delivery) : bool :=
  match dl_outcome d with
  | SendReturns res => success res
  | SendThrows => false
  end.

(** The same store with another collection of subscribers. *)
Definition withUsers (users : gmap string Subscriber) (store : StoreSnapshot)
    : StoreSnapshot :=
  {| st_id := st_id store;
     st_name := st_name store;
     st_users := users;
     st_config := st_config store;
     st_inventory := st_inventory store;
     st_usersGetFails := st_usersGetFails store;
     st_configGetFails := st_configGetFails store;
     st_inventoryGetFails := st_inventoryGetFails store |}.

(** The same store with another settings document and another fate of the
    read of that document. *)
Definition withConfigRead (fails : bool) (doc : option SettingsDoc)
    (store : StoreSnapshot) : StoreSnapshot :=
  {| st_id := st_id store;
     st_name := st_name store;
     st_users := st_users store;
     st_config := doc;
     st_inventory := st_inventory store;
     st_usersGetFails := st_usersGetFails store;
     st_configGetFails := fails;
     st_inventoryGetFails := st_inventoryGetFails store |}.

(** A settings document without any field. *)
Definition emptyConfig : SettingsDoc :=
  {| cfg_lowStockThreshold := None;
     cfg_expiryWarningDays := None;
     cfg_enableExpiryAlerts := None;
     cfg_enableLowStockAlerts := None |}.

(** Every record of [users] is a record of [users0], with or without a new
    [lastAlertSent]. *)
Definition descends (users0 users : gmap string Subscriber) : Prop :=
  ∀ id s', users !! id = Some s' ->
    ∃ s, users0 !! id = Some s ∧ (s' = s ∨ ∃ ts, s' = stamped ts s).

(** ** Strings of the test endpoint *)

Module JsString.

(** [s.startsWith(p)] *)
Definition startsWith (p s : string) : bool := String.prefix p s.

(** The string without its first [n] characters. *)
Fixpoint drop (n : nat) (s : string) : string :=
  match n, s with
  | O, _ => s
  | S n', String _ s' => drop n' s'
  | S _, EmptyString => EmptyString
  end.

(** The part of [s] before the first occurrence of the non-empty separator
    [sep], and the part after that occurrence when there is one. *)
Fixpoint cut (sep s : string) : string * option string :=
  match s with
  | EmptyString => (EmptyString, None)
  | String c s' =>
      if String.prefix sep s then (EmptyString, Some (drop (String.length sep) s))
      else let '(a, rest) := cut sep s' in (String c a, rest)
  end.

(** [s.split(sep)[1]] for a non-empty separator: [None] is [undefined]. *)
Definition splitAt1 (sep s : string) : option string :=
  match snd (cut sep s) with
  | Some rest => Some (fst (cut sep rest))
  | None => None
  end.

(** [sep] occurs somewhere in [s]. *)
Fixpoint occursIn (sep s : string) : bool :=
  match s with
  | EmptyString => String.prefix sep EmptyString
  | String c s' => String.prefix sep s || occursIn sep s'
  end.

(** [!x] is false: the value is a non-empty string. *)
Definition truthy (x : option string) : option string :=
  match x with
  | Some (String c s) => Some (String c s)
  | _ => None
  end.

End JsString.

(** ** The test alert endpoint *)

(** The parts of the request that the handler reads: the method, the
    [storeId] of the parsed body (the platform hands the handler an object
    as body) and the authorization header. *)
Record TestRequest := {
  rq_method : string;
  rq_storeId : option string;
  rq_authorization : option string
}.

Inductive ResponseBody :=
| SendText (text : string)
| JsonError (error : string)
| JsonSuccess (message : string).

Record Response := {
  res_status : Z;
  res_body : ResponseBody
}.

(** The identity service and the test message of the bot library. *)
Class TestHost (World : Type) := {
  (** [admin.auth().verifyIdToken(idToken)]: the uid of the decoded token,
      [None] when the promise is rejected *)
  verifyIdToken : string -> World -> option string * World;
  sendTestAlert : Z -> World -> SendOutcome * World
}.

Record TestAttempt := {
  ta_id : string;
  ta_chatId : Z;
  ta_outcome : SendOutcome
}.

Record TestLoop (World : Type) := {
  tl_world : World;
  tl_sentCount : nat;
  tl_log : list TestAttempt
}.
Arguments tl_world {World}.
Arguments tl_sentCount {World}.
Arguments tl_log {World}.

Record TestRun (World : Type) := {
  tr_response : Response;
  tr_attempts : list TestAttempt;
  tr_world : World
}.
Arguments tr_response {World}.
Arguments tr_attempts {World}.
Arguments tr_world {World}.

Section TestEndpoint.
Context {World : Type} `{Host World} `{TestHost World}.

(** One pass of the loop over the subscribers: [try] and [catch]. *)
Definition testOne (st : TestLoop World) (doc : string * Subscriber) : TestLoop World :=
  let '(id, subscriber) := doc in
  let '(outcome, w) := sendTestAlert (chatId subscriber) (tl_world st) in
  let entry := {| ta_id := id; ta_chatId := chatId subscriber; ta_outcome := outcome |} in
  match outcome with
  | SendReturns result =>
      {| tl_world := w;
         tl_sentCount := if success result then S (tl_sentCount st) else tl_sentCount st;
         tl_log := tl_log st ++ [entry] |}
  | SendThrows =>
      {| tl_world := w; tl_sentCount := tl_sentCount st; tl_log := tl_log st ++ [entry] |}
  end.

(** The subscribers of [db.collection('stores').doc(storeId)]: an id
    without store document has an empty collection. *)
Definition storeById (db : Firestore) (storeId : string) : option StoreSnapshot :=
  List.find (fun s => String.eqb (st_id s) storeId) (db_stores db).

(** The handler of [sendTestTelegramAlert]. *)
Definition sendTestTelegramAlert (db : Firestore) (req : TestRequest) (w : World)
    : TestRun World :=
  let reply status body w :=
    {| tr_response := {| res_status := status; res_body := body |};
       tr_attempts := []; tr_world := w |} in
  if String.eqb (rq_method req) "OPTIONS" then reply 204 (SendText EmptyString) w
  else if negb (String.eqb (rq_method req) "POST") then
    reply 405 (JsonError "Method not allowed") w
  else
    match JsString.truthy (rq_storeId req) with
    | None => reply 400 (JsonError "Missing storeId") w
    | Some storeId =>
        match JsString.truthy (rq_authorization req) with
        | None => reply 401 (JsonError "Unauthorized") w
        | Some authHeader =>
            if negb (JsString.startsWith "Bearer " authHeader) then
              reply 401 (JsonError "Unauthorized") w
            else
              match JsString.splitAt1 "Bearer " authHeader with
              | None => reply 500 (JsonError "Internal server error") w
              | Some idToken =>
                  let '(decoded, w) := verifyIdToken idToken w in
                  match decoded with
                  | None => reply 500 (JsonError "Internal server error") w
                  | Some uid =>
                      if negb (String.eqb uid storeId) then
                        reply 403 (JsonError "Forbidden") w
                      else
                        let w := settle w in
                        let users :=
                          match storeById db storeId with
                          | Some store =>
                              if st_usersGetFails store then None
                              else Some (map_to_list (st_users store))
                          | None => Some []
                          end in
                        match users with
                        | None => reply 500 (JsonError "Internal server error") w
                        | Some [] => reply 404 (JsonError "No subscribers found") w
                        | Some docs =>
                            let l := fold_left testOne docs
                                       {| tl_world := w; tl_sentCount := 0; tl_log := [] |} in
                            {| tr_response :=
                                 {| res_status := 200;
                                    res_body :=
                                      JsonSuccess
                                        ("Test alert sent to "
                                           +:+ Js.show (Z.of_nat (tl_sentCount l))
                                           +:+ " subscriber(s)") |};
                               tr_attempts := tl_log l;
                               tr_world := tl_world l |}
                        end
                  end
              end
        end
    end.

End TestEndpoint.

(** The test send of an attempt returned success. *)
Definition attemptOk (a : TestAttempt) : bool :=
  match ta_outcome a with
  | SendReturns res => success res
  | SendThrows => false
  end.

(** *** A host for examples of the test endpoint *)

(** The identity service of the examples accepts the token [tok-shop] for
    the user [shop] and rejects every other token; test sends answer like
    the sends of [demoSend]. *)
Definition demoTestHost : TestHost (nat * Z) :=
  {| verifyIdToken := fun token w =>
       (if String.eqb token "tok-shop" then Some "shop" else None, w);
     sendTestAlert := fun chat w => demoSend chat EmptyString w |}.

Definition demoRequest : TestRequest :=
  {| rq_method := "POST";
     rq_storeId := Some "shop";
     rq_authorization := Some "Bearer tok-shop" |}.

(** ** A host that records what the job asks of it *)

Inductive Event :=
| EvSend (chat : Z) (message : string)
| EvSleep (ms : Z)
| EvSettle.

Global Instance Event_eq_dec : EqDecision Event.
Proof. solve_decision. Defined.

(** The world is the list of the requests made so far; the gateway may
    answer by what it has seen, and so may the clock and the store of the
    subscriber records. *)
Definition traceHost (gateway : Z -> string -> list Event -> SendOutcome)
    (rejects : list Event -> bool) (time : list Event -> Z) : Host (list Event) :=
  {| sendMessage := fun chat message w =>
       (gateway chat message w, w ++ [EvSend chat message]);
     clock := time;
     sleep := fun ms w => w ++ [EvSleep ms];
     settle := fun w => w ++ [EvSettle];
     writeRejects := rejects |}.

(** The requests of one pass of the subscriber loop, read off its log
    entry: the send, then the write (if one was made) and the pause (if
    the pass got that far). *)
Definition pacing (message : string) (d : Delivery) : list Event :=
  EvSend (dl_chatId d) message ::
  match dl_effect d with
  | Updated _ | Deleted => [EvSettle; EvSleep 100]
  | WriteFailed => [EvSettle]
  | Untouched =>
      match dl_outcome d with
      | SendReturns _ => [EvSleep 100]
      | SendThrows => []
      end
  end.

(** The trace when the [k] first deliveries of a call are done, and when
    the send of the next one has returned. *)
Definition traceBefore (message : string) (start : list Event)
    (ds : list Delivery) (k : nat) : list Event :=
  start ++ flat_map (pacing message) (take k ds).

Definition traceAtSend (message : string) (start : list Event)
    (ds : list Delivery) (k : nat) (d : Delivery) : list Event :=
  traceBefore message start ds k ++ [EvSend (dl_chatId d) message].

(** The send of a delivery returned. *)
Definition returned (d : Delivery) : bool :=
  match dl_outcome d with
  | SendReturns _ => true
  | SendThrows => false
  end.

(** The pauses of [ms] milliseconds in a trace. *)
Definition pauses (ms : Z) (w : list Event) : nat :=
  length (filter (fun e => e = EvSleep ms) w).

(** A recording host whose gateway accepts every message and whose clock
    counts the requests; the run over [demoDb] on it. *)
Definition acceptAll (chat : Z) (message : string) (w : list Event) : SendOutcome :=
  SendReturns {| success := true; blocked := false |}.

Definition countingClock (w : list Event) : Z := Z.of_nat (length w).

Definition acceptWrites (w : list Event) : bool := false.

Definition demoTraceRun : RunState (list Event) :=
  match @dailyTelegramAlerts utc _ (traceHost acceptAll acceptWrites countingClock) demoDb [] with
  | JobReturns st => st
  | JobThrows =>
      {| rs_stats := {| totalAlertsSent := 0; successCount := 0; failureCount := 0 |};
         rs_world := []; rs_runs := [] |}
  end.

(** * Proofs *)

(** ** The stable sort *)

Section SortFacts.
Context {A : Type} (cmp : A -> A -> Z) (key : A -> Z).
Hypothesis cmp_key : forall a b, cmp a b = key a - key b.

Lemma insertBefore_perm x l : Js.insertBefore cmp x l ≡ₚ x :: l.
Proof.
  induction l as [|y l IH]; simpl; [done|].
  destruct (cmp x y <=? 0); [done|].
  rewrite IH. apply perm_swap.
Qed.

Lemma sort_perm l : Js.sort cmp l ≡ₚ l.
Proof.
  induction l as [|x l IH]; simpl; [done|].
  unfold Js.sort in *. simpl. rewrite insertBefore_perm. by rewrite IH.
Qed.

Lemma insertBefore_sorted x l :
  StronglySorted (keyLe key) l -> StronglySorted (keyLe key) (Js.insertBefore cmp x l).
Proof.
  induction l as [|y l IH]; simpl; intros Hs.
  - repeat constructor.
  - inversion Hs as [|? ? Hl Hy]; subst.
    destruct (Z.leb_spec (cmp x y) 0) as [Hc|Hc]; rewrite cmp_key in Hc.
    + constructor; [done|]. constructor; [unfold keyLe; lia|].
      eapply Forall_impl; [exact Hy|]. unfold keyLe. intros; simpl in *; lia.
    + constructor; [by apply IH|].
      rewrite insertBefore_perm. constructor; [unfold keyLe; lia | done].
Qed.

Lemma sort_sorted l : StronglySorted (keyLe key) (Js.sort cmp l).
Proof.
  induction l as [|x l IH]; [constructor|].
  unfold Js.sort in *. simpl. by apply insertBefore_sorted.
Qed.

Lemma insertBefore_filter_ne k x l :
  key x ≠ k ->
  filter (λ a, key a = k) (Js.insertBefore cmp x l) = filter (λ a, key a = k) l.
Proof.
  intros Hne. induction l as [|y l IH]; simpl.
  - by rewrite filter_cons_False.
  - destruct (cmp x y <=? 0).
    + by rewrite (filter_cons_False _ x).
    + rewrite !(filter_cons _ y), IH. done.
Qed.

Lemma insertBefore_filter_eq x l :
  StronglySorted (keyLe key) l ->
  filter (λ a, key a = key x) (Js.insertBefore cmp x l)
  = x :: filter (λ a, key a = key x) l.
Proof.
  induction l as [|y l IH]; simpl; intros Hs.
  - by rewrite filter_cons_True.
  - inversion Hs as [|? ? Hl Hy]; subst.
    destruct (Z.leb_spec (cmp x y) 0) as [Hc|Hc]; rewrite cmp_key in Hc.
    + by rewrite (filter_cons_True _ x).
    + rewrite (filter_cons_False _ y) by lia.
      rewrite (filter_cons_False _ y) by lia. by apply IH.
Qed.

Lemma sort_stable k l :
  filter (λ a, key a = k) (Js.sort cmp l) = filter (λ a, key a = k) l.
Proof.
  induction l as [|x l IH]; [done|].
  unfold Js.sort in *. simpl.
  destruct (decide (key x = k)) as [<-|Hne].
  - rewrite insertBefore_filter_eq by apply sort_sorted.
    rewrite filter_cons_True by done. by rewrite IH.
  - rewrite insertBefore_filter_ne by done.
    rewrite filter_cons_False by done. done.
Qed.
End SortFacts.

Lemma StronglySorted_weaken {A} (R R' : A -> A -> Prop) (l : list A) :
  (forall a b, R a b -> R' a b) -> StronglySorted R l -> StronglySorted R' l.
Proof.
  intros HR. induction 1 as [|x l Hl IH Hx]; constructor; [done|].
  eapply Forall_impl; [exact Hx|]. auto.
Qed.

(** A list in ascending order of [key] is determined by its entries key by
    key: whatever stable sort the engine runs, its result on an array is
    the one of [Js.sort]. *)
Lemma sorted_stable_unique {A} (key : A -> Z) (l1 l2 : list A) :
  StronglySorted (keyLe key) l1 ->
  StronglySorted (keyLe key) l2 ->
  (forall k, filter (λ a, key a = k) l1 = filter (λ a, key a = k) l2) ->
  l1 = l2.
Proof.
  intros Hs1. revert l2.
  induction Hs1 as [|x l1 Hs1 IH Hx]; intros l2 Hs2 Hf.
  - destruct l2 as [|y l2]; [done|].
    specialize (Hf (key y)). rewrite filter_nil, filter_cons_True in Hf by done.
    done.
  - destruct Hs2 as [|y l2 Hs2 Hy].
    { specialize (Hf (key x)). rewrite filter_nil, filter_cons_True in Hf by done.
      done. }
    assert (Hxy : key x = key y).
    { assert (Hx2 : x ∈ y :: l2).
      { assert (Hin : x ∈ filter (λ a, key a = key x) (x :: l1))
          by (rewrite filter_cons_True by done; left).
        rewrite Hf in Hin. by apply list_elem_of_filter in Hin as [_ ?]. }
      assert (Hy1 : y ∈ x :: l1).
      { assert (Hin : y ∈ filter (λ a, key a = key y) (y :: l2))
          by (rewrite filter_cons_True by done; left).
        rewrite <- Hf in Hin. by apply list_elem_of_filter in Hin as [_ ?]. }
      rewrite Forall_forall in Hx, Hy. unfold keyLe in *.
      apply elem_of_cons in Hx2 as [->|Hx2]; [done|].
      apply elem_of_cons in Hy1 as [->|Hy1]; [done|].
      specialize (Hx _ Hy1). specialize (Hy _ Hx2). lia. }
    pose proof (Hf (key x)) as Hhead.
    rewrite filter_cons_True in Hhead by done.
    rewrite (filter_cons_True _ y) in Hhead by done.
    injection Hhead as -> Htail.
    f_equal. apply IH; [done|].
    intros k. destruct (decide (key y = k)) as [<-|Hne]; [done|].
    specialize (Hf k). by rewrite !filter_cons_False in Hf by done.
Qed.

Lemma sort_unique {A} (cmp : A -> A -> Z) (key : A -> Z) (l sorted : list A) :
  (forall a b, cmp a b = key a - key b) ->
  StronglySorted (keyLe key) sorted ->
  (forall k, filter (λ a, key a = k) sorted = filter (λ a, key a = k) l) ->
  sorted = Js.sort cmp l.
Proof.
  intros Hcmp Hs Hf. apply (sorted_stable_unique key); [done| |].
  - by apply sort_sorted.
  - intros k. rewrite Hf. symmetry. by apply sort_stable.
Qed.

(** ** The classifier, item by item *)

Section ClassifierFacts.
Context `{Locale}.

Lemma analyzeItem_spec today ewd lst acc item :
  analyzeItem today ewd lst acc item =
  {| expired := expired acc ++ option_list (specExpired (wholeDays today) item);
     nearExpiry := nearExpiry acc ++ option_list (specNearExpiry (wholeDays today) ewd item);
     lowStock := lowStock acc ++ option_list (specLowStock lst item) |}.
Proof.
  destruct acc as [e n l].
  unfold analyzeItem, checkExpiry, checkLowStock, specExpired, specNearExpiry, specLowStock,
    newDate0, daysUntil, wholeDays.
  destruct (item_expiryDate item) as [| |ms]; simpl.
  1,2: destruct (Z.leb_spec (Js.numOr0 (item_quantity item)) lst);
       case_decide; try lia; simpl; by rewrite ?app_nil_r.
  set (d := Js.ceilDiv (setHours0 ms - today) oneDayMs).
  destruct (Z.leb_spec d 0); destruct (Z.leb_spec d ewd);
    destruct (Z.leb_spec (Js.numOr0 (item_quantity item)) lst);
    repeat case_decide; try lia; simpl; by rewrite ?app_nil_r.
Qed.

Lemma classifyFrom_spec today ewd lst inventory acc :
  fold_left (analyzeItem today ewd lst) inventory acc =
  {| expired := expired acc ++ omap (specExpired (wholeDays today)) inventory;
     nearExpiry := nearExpiry acc ++ omap (specNearExpiry (wholeDays today) ewd) inventory;
     lowStock := lowStock acc ++ omap (specLowStock lst) inventory |}.
Proof.
  revert acc. induction inventory as [|item inv IH]; intros acc; simpl.
  - destruct acc; simpl; by rewrite !app_nil_r.
  - rewrite IH, analyzeItem_spec. simpl.
    f_equal; rewrite <- app_assoc; f_equal;
      match goal with |- context [option_list ?o] => destruct o end; done.
Qed.

Lemma classifyAll_spec today ewd lst inventory :
  classifyAll today ewd lst inventory =
  {| expired := omap (specExpired (wholeDays today)) inventory;
     nearExpiry := omap (specNearExpiry (wholeDays today) ewd) inventory;
     lowStock := omap (specLowStock lst) inventory |}.
Proof. unfold classifyAll. by rewrite classifyFrom_spec. Qed.

(** For a date that already is the start of a local day, the two readings
    of days-until-expiry agree. *)
Lemma rawDays_at_start_of_day today ms :
  setHours0 ms = ms -> rawDays today ms = wholeDays today ms.
Proof. intros Hms. unfold rawDays, wholeDays. by rewrite Hms. Qed.

Lemma specLowStock_withDate lst f inventory :
  omap (specLowStock lst) (map (withDate f) inventory) = omap (specLowStock lst) inventory.
Proof.
  induction inventory as [|item inv IH]; [done|].
  change (omap (specLowStock lst) (withDate f item :: map (withDate f) inv)
          = omap (specLowStock lst) ([item] ++ inv)).
  change (withDate f item :: map (withDate f) inv)
    with ([withDate f item] ++ map (withDate f) inv).
  rewrite !omap_app, IH. done.
Qed.

Lemma specLowStock_entry lst (i : InventoryItem) :
  specLowStock lst i
  = if decide (default 0 (item_quantity i) <= lst) then Some (lowStockEntry i) else None.
Proof.
  unfold specLowStock, lowStockEntry, Js.numOr0, Js.strOr.
  destruct i as [id name q date]. cbn [item_name item_quantity].
  destruct q as [q|], name as [[|c name]|];
    cbn [default from_option Datatypes.id]; repeat case_decide; try lia; reflexivity.
Qed.

(** The low stock entries are the entries of the items whose quantity,
    read off the item, is at most the threshold. *)
Lemma lowStock_selected lst (inventory : list InventoryItem) :
  omap (specLowStock lst) inventory
  = map lowStockEntry
      (filter (λ i, default 0 (item_quantity i) <= lst) inventory).
Proof.
  induction inventory as [|i inv IH]; [done|].
  rewrite filter_cons. change (i :: inv) with ([i] ++ inv).
  rewrite omap_app, IH. clear IH. cbn [omap list_omap app].
  rewrite specLowStock_entry. by case_decide.
Qed.

End ClassifierFacts.

(** ** Properties of the classifier *)

Section ClassifierProperties.
Context `{Locale}.

(** C2. For every snapshot and threshold, the low stock list holds, up to
    order, exactly one entry for every item whose quantity (zero when the
    field is absent) is at most the threshold, with the name of the item
    and that quantity, and no entry for any other item: no entry has a
    quantity above the threshold. The expiry dates of the items, the clock
    and the expiry setting play no part in it. *)
Theorem low_stock_exactly_once now inventory ewd lst :
  let r := analyzeInventory now inventory ewd lst in
  let low := filter (λ i, default 0 (item_quantity i) <= lst) inventory in
  lowStock r ≡ₚ map lowStockEntry low ∧
  length (lowStock r) = length low ∧
  (∀ e, e ∈ lowStock r ↔
        ∃ i, i ∈ inventory ∧ default 0 (item_quantity i) <= lst ∧
             ls_quantity e = default 0 (item_quantity i) ∧ e = lowStockEntry i) ∧
  (∀ e, e ∈ lowStock r -> ls_quantity e <= lst) ∧
  (∀ f now' ewd',
      lowStock (analyzeInventory now' (map (withDate f) inventory) ewd' lst)
      = lowStock r).
Proof.
  cbn zeta. unfold analyzeInventory. cbn [lowStock].
  rewrite classifyAll_spec. cbn [lowStock].
  assert (Hp : Js.sort (λ a b, ls_quantity a - ls_quantity b)
                 (omap (specLowStock lst) inventory)
               ≡ₚ map lowStockEntry
                    (filter (λ i, default 0 (item_quantity i) <= lst) inventory)).
  { rewrite <- lowStock_selected. apply sort_perm. }
  assert (Hin : ∀ e, e ∈ Js.sort (λ a b, ls_quantity a - ls_quantity b)
                         (omap (specLowStock lst) inventory) ↔
                     ∃ i, i ∈ inventory ∧ default 0 (item_quantity i) <= lst ∧
                          e = lowStockEntry i).
  { intros e. rewrite Hp, list_elem_of_fmap. split.
    - intros (i & -> & Hi). apply list_elem_of_filter in Hi as [Hq Hi]. by exists i.
    - intros (i & Hi & Hq & ->). exists i. split; [done|].
      by apply list_elem_of_filter. }
  split; [exact Hp|]. split; [|split; [|split]].
  - by rewrite Hp, length_map.
  - intros e. rewrite Hin. split.
    + intros (i & Hi & Hq & ->). by exists i.
    + intros (i & Hi & Hq & _ & ->). by exists i.
  - intros e He. apply Hin in He as (i & _ & Hq & ->). done.
  - intros f now' ewd'. rewrite classifyAll_spec. cbn [lowStock].
    by rewrite specLowStock_withDate.
Qed.

(** C3, as amended. With days-until-expiry computed from the expiry date
    moved to the start of its local day, the expired list holds, up to
    order, one entry with [daysExpired = abs days] for every dated item
    with [days <= 0]; the near-expiry list one entry with [days] for every
    dated item with [0 < days <= expiryWarningDays]; no other item has an
    entry, and no item is selected for both lists. *)
Theorem expiry_rule_whole_days now inventory ewd lst :
  let today := setHours0 now in
  let r := analyzeInventory now inventory ewd lst in
  expiryRule wholeDays now inventory ewd lst ∧
  (∀ e, e ∈ expired r ↔
        ∃ i ms, i ∈ inventory ∧ item_expiryDate i = DateAt ms ∧
                wholeDays today ms <= 0 ∧
                e = {| ex_name := Js.strOr (item_name i) "Unnamed Item";
                       ex_daysExpired := Z.abs (wholeDays today ms);
                       ex_expiryDate := setHours0 ms |}) ∧
  (∀ e, e ∈ nearExpiry r ↔
        ∃ i ms, i ∈ inventory ∧ item_expiryDate i = DateAt ms ∧
                0 < wholeDays today ms <= ewd ∧
                e = {| ne_name := Js.strOr (item_name i) "Unnamed Item";
                       ne_daysUntilExpiry := wholeDays today ms;
                       ne_expiryDate := setHours0 ms |}) ∧
  (∀ i, ¬ (is_Some (specExpired (wholeDays today) i) ∧
           is_Some (specNearExpiry (wholeDays today) ewd i))).
Proof.
  cbn zeta.
  assert (Hrule : expiryRule wholeDays now inventory ewd lst).
  { unfold expiryRule, analyzeInventory. cbn [expired nearExpiry].
    rewrite classifyAll_spec. cbn [expired nearExpiry].
    split; apply sort_perm. }
  split; [exact Hrule|]. destruct Hrule as [He Hn]. cbn zeta in He, Hn.
  split; [|split].
  - intros e. rewrite He, list_elem_of_omap. unfold specExpired.
    split.
    + intros (i & Hi & Hsel). destruct (item_expiryDate i) as [| |ms] eqn:Hd; try done.
      case_decide; [|done]. exists i, ms. by inversion Hsel.
    + intros (i & ms & Hi & Hd & Hle & ->). exists i. split; [done|].
      rewrite Hd. by case_decide.
  - intros e. rewrite Hn, list_elem_of_omap. unfold specNearExpiry.
    split.
    + intros (i & Hi & Hsel). destruct (item_expiryDate i) as [| |ms] eqn:Hd; try done.
      case_decide; [|done]. exists i, ms. by inversion Hsel.
    + intros (i & ms & Hi & Hd & Hle & ->). exists i. split; [done|].
      rewrite Hd. by case_decide.
  - intros i [[e He'] [n Hn']]. unfold specExpired, specNearExpiry in *.
    destruct (item_expiryDate i); try done.
    repeat case_decide; try done; lia.
Qed.

(** C7. For every snapshot, [expired] is in descending order of
    [daysExpired], [nearExpiry] in ascending order of [daysUntilExpiry],
    [lowStock] in ascending order of [quantity]; and the entries of one
    list that have the same key stand in the order of their items in the
    snapshot. *)
Theorem lists_sorted_stably now inventory ewd lst :
  let r := analyzeInventory now inventory ewd lst in
  let today := setHours0 now in
  (StronglySorted (λ a b, ex_daysExpired b <= ex_daysExpired a) (expired r) ∧
   StronglySorted (λ a b, ne_daysUntilExpiry a <= ne_daysUntilExpiry b) (nearExpiry r) ∧
   StronglySorted (λ a b, ls_quantity a <= ls_quantity b) (lowStock r)) ∧
  (∀ k, filter (λ e, ex_daysExpired e = k) (expired r)
        = filter (λ e, ex_daysExpired e = k)
            (omap (specExpired (wholeDays today)) inventory)) ∧
  (∀ k, filter (λ e, ne_daysUntilExpiry e = k) (nearExpiry r)
        = filter (λ e, ne_daysUntilExpiry e = k)
            (omap (specNearExpiry (wholeDays today) ewd) inventory)) ∧
  (∀ k, filter (λ e, ls_quantity e = k) (lowStock r)
        = filter (λ e, ls_quantity e = k) (omap (specLowStock lst) inventory)).
Proof.
  cbn zeta. unfold analyzeInventory. cbn [expired nearExpiry lowStock].
  rewrite classifyAll_spec. cbn [expired nearExpiry lowStock].
  split; [split; [|split] | split; [|split]].
  - eapply StronglySorted_weaken;
      [|apply (sort_sorted _ (λ e, - ex_daysExpired e)); intros; lia].
    unfold keyLe. intros; lia.
  - apply (sort_sorted _ ne_daysUntilExpiry). done.
  - apply (sort_sorted _ ls_quantity). done.
  - intros k.
    rewrite !(list_filter_iff (λ e, ex_daysExpired e = k)
                (λ e, - ex_daysExpired e = - k)) by (intros; lia).
    apply (sort_stable _ (λ e, - ex_daysExpired e)). intros; lia.
  - intros k. by apply sort_stable.
  - intros k. by apply sort_stable.
Qed.

End ClassifierProperties.

(** C3, as the specification words it, fails: in UTC at the epoch, an item that
    expires at noon of the current day is expired with zero days, while
    the quotient on the item's own date is one half, rounded up to one day. *)
Lemma expiry_rule_raw_days_fails :
  ¬ (∀ (L : Locale) now inventory ewd lst,
        @expiryRule L rawDays now inventory ewd lst).
Proof.
  intros Hrule.
  destruct (Hrule utc 0 [item "Milk" 2 (DateAt noon)] 7 5) as [He _].
  vm_compute in He. by apply Permutation_length in He.
Qed.

(** The example of the specification: one item, two in stock, expiring
    tomorrow, with the default settings. *)
Example milk_expiring_tomorrow :
  @analyzeInventory utc (3 * oneDayMs + noon)
    [item "Milk" 2 (DateAt (4 * oneDayMs))] 7 5
  = {| expired := [];
       nearExpiry := [{| ne_name := "Milk"; ne_daysUntilExpiry := 1;
                         ne_expiryDate := 4 * oneDayMs |}];
       lowStock := [{| ls_name := "Milk"; ls_quantity := 2 |}] |}.
Proof. reflexivity. Qed.

(** ** The composer in closed form *)

Lemma append_assoc (s1 s2 s3 : string) : (s1 +:+ s2) +:+ s3 = s1 +:+ (s2 +:+ s3).
Proof.
  induction s1 as [|c s1 IH]; [done|].
  change (String c ((s1 +:+ s2) +:+ s3) = String c (s1 +:+ (s2 +:+ s3))).
  by rewrite IH.
Qed.

Lemma append_empty_r (s : string) : s +:+ EmptyString = s.
Proof.
  induction s as [|c s IH]; [done|].
  change (String c (s +:+ EmptyString) = String c s). by rewrite IH.
Qed.

Lemma joinLines_app (l1 l2 : list string) :
  joinLines (l1 ++ l2) = joinLines l1 +:+ joinLines l2.
Proof.
  induction l1 as [|s l1 IH]; [done|].
  change (s +:+ joinLines (l1 ++ l2) = (s +:+ joinLines l1) +:+ joinLines l2).
  by rewrite IH, append_assoc.
Qed.

Lemma joinLines_singleton (s : string) : joinLines [s] = s.
Proof. apply append_empty_r. Qed.

Lemma sectionText_shape {A} (heading : nat -> string) (line : A -> string)
    (entries : list A) :
  ∃ lines, sectionText heading line entries = joinLines lines ∧
           SectionShape heading line entries lines.
Proof.
  unfold sectionText, Js.slice0.
  destruct (Nat.ltb_spec 0 (length entries)) as [Hpos|Hzero].
  - destruct (Nat.ltb_spec 10 (length entries)) as [Hmany|Hfew].
    + eexists. split; [|apply (TruncatedSection _ _ _ (take 10 entries) (drop 10 entries))].
      * by rewrite !joinLines_app, !joinLines_singleton.
      * by rewrite take_drop.
      * rewrite length_take. lia.
      * rewrite length_drop. lia.
    + eexists. split; [|apply WholeSection; lia].
      rewrite firstn_all2 by lia.
      by rewrite !joinLines_app, !joinLines_singleton.
  - exists []. split; [done|]. apply NoSection.
    destruct entries; [done|simpl in Hzero; lia].
Qed.

Section ComposerFacts.
Context `{Locale}.

Lemma addLines_spec {A} (line : A -> string) (items : list A) (message : string) :
  addLines line items message = message +:+ joinLines (map line items).
Proof.
  unfold addLines. revert message.
  induction items as [|x items IH]; intros message; simpl.
  - by rewrite append_empty_r.
  - rewrite IH, append_assoc. done.
Qed.

Lemma formatAlertMessageArr_run now storeName c :
  formatAlertMessageArr now storeName c =
  (title now storeName
     +:+ sectionText expiredHeading expiredLine (expired c)
     +:+ sectionText nearHeading nearLine (nearExpiry c)
     +:+ sectionText lowHeading lowLine (lowStock c)
     +:+ footer, c).
Proof.
  unfold formatAlertMessageArr, arr_bind, arr_ret, expired_length,
    nearExpiry_length, lowStock_length, expired_slice0, nearExpiry_slice0,
    lowStock_slice0, sectionText, title, expiredHeading, nearHeading, lowHeading.
  destruct (0 <? length (expired c))%nat, (10 <? length (expired c))%nat,
    (0 <? length (nearExpiry c))%nat, (10 <? length (nearExpiry c))%nat,
    (0 <? length (lowStock c))%nat, (10 <? length (lowStock c))%nat;
    cbn beta iota zeta; rewrite ?addLines_spec;
    rewrite ?append_assoc, ?append_empty_r; reflexivity.
Qed.

End ComposerFacts.

Lemma sectionText_ext {A} (heading : nat -> string) (line line' : A -> string)
    (entries : list A) :
  (∀ x, line x = line' x) ->
  sectionText heading line entries = sectionText heading line' entries.
Proof.
  intros Hext. unfold sectionText.
  by rewrite (map_ext line line' Hext).
Qed.

(** The lines that the composer adds are the lines of the specification. *)
Lemma expiredLine_stated `{Locale} (e : ExpiredEntry) : expiredLine e = expiredEntryLine e.
Proof.
  unfold expiredLine, expiredEntryLine, expiredText, plural.
  destruct (Z.eqb_spec (ex_daysExpired e) 0); case_decide; try lia; [reflexivity|].
  destruct (Z.ltb_spec 1 (ex_daysExpired e)); case_decide; try lia; reflexivity.
Qed.

Lemma nearLine_stated `{Locale} (e : NearEntry) : nearLine e = nearEntryLine e.
Proof.
  unfold nearLine, nearEntryLine, nearEmoji, plural.
  destruct (Z.eqb_spec (ne_daysUntilExpiry e) 1),
    (Z.leb_spec (ne_daysUntilExpiry e) 3),
    (Z.ltb_spec 1 (ne_daysUntilExpiry e));
    repeat case_decide; try lia; reflexivity.
Qed.

Lemma lowLine_stated `{Locale} (e : LowEntry) : lowLine e = lowEntryLine e.
Proof.
  unfold lowLine, lowEntryLine, lowEmoji, quantityText.
  destruct (Z.eqb_spec (ls_quantity e) 0); case_decide; try lia;
    rewrite ?append_assoc; reflexivity.
Qed.

Lemma SectionShape_length {A} (heading : nat -> string) (line : A -> string)
    (entries : list A) (lines : list string) :
  SectionShape heading line entries lines -> (length lines <= 13)%nat.
Proof.
  destruct 1 as [_|Hlen|shown others _ Hshown _]; simpl.
  - lia.
  - rewrite length_app, length_map. simpl. lia.
  - rewrite length_app, length_map. simpl. lia.
Qed.

(** ** Properties of the composer *)

Section ComposerProperties.
Context `{Locale}.

(** C6. The digest is the title, the expired, near-expiry and low-stock
    sections in this order, and the footer. A section of a list of more
    than ten entries is its heading, the lines of the first ten entries,
    one truncation line [_...and N more items_] where N is the list length
    minus ten, and a blank line; a section of one to ten entries has a line
    for each entry and no truncation line; an empty list has no section. No
    section has more than ten entry lines. The lines are the texts of the
    specification, written out apart from the composer. *)
Theorem digest_sections_bounded now storeName e n l :
  ∃ se sn sl,
    formatAlertMessage now storeName e n l
    = joinLines ([title now storeName] ++ se ++ sn ++ sl ++ [footer]) ∧
    (SectionShape expiredHeading expiredEntryLine e se ∧
     SectionShape nearHeading nearEntryLine n sn ∧
     SectionShape lowHeading lowEntryLine l sl) ∧
    (length se <= 13 ∧ length sn <= 13 ∧ length sl <= 13)%nat.
Proof.
  destruct (sectionText_shape expiredHeading expiredEntryLine e) as (se & Ee & Se).
  destruct (sectionText_shape nearHeading nearEntryLine n) as (sn & En & Sn).
  destruct (sectionText_shape lowHeading lowEntryLine l) as (sl & El & Sl).
  exists se, sn, sl. split; [|split; [done|]].
  - unfold formatAlertMessage. rewrite formatAlertMessageArr_run. cbn [fst expired nearExpiry lowStock].
    rewrite (sectionText_ext _ _ _ _ expiredLine_stated),
      (sectionText_ext _ _ _ _ nearLine_stated),
      (sectionText_ext _ _ _ _ lowLine_stated).
    rewrite Ee, En, El, !joinLines_app, !joinLines_singleton. done.
  - repeat split; eapply SectionShape_length; eassumption.
Qed.

(** C8. Two calls of the composer with the same store name, the same three
    arrays and clock readings that format to the same run date return the
    same text, and each call leaves the three arrays as they were. *)
Theorem composer_deterministic now1 now2 storeName c :
  dateDMY now1 = dateDMY now2 ->
  fst (formatAlertMessageArr now1 storeName c)
    = fst (formatAlertMessageArr now2 storeName c) ∧
  snd (formatAlertMessageArr now1 storeName c) = c ∧
  snd (formatAlertMessageArr now2 storeName c) = c ∧
  formatAlertMessage now1 storeName (expired c) (nearExpiry c) (lowStock c)
    = formatAlertMessage now2 storeName (expired c) (nearExpiry c) (lowStock c).
Proof.
  intros Hdate. unfold formatAlertMessage.
  rewrite !formatAlertMessageArr_run. cbn [fst snd expired nearExpiry lowStock].
  unfold title. rewrite Hdate. done.
Qed.

End ComposerProperties.

Lemma composer_deterministic_witness :
  @dateDMY utc 0 = @dateDMY utc 1000 ∧
  (fst (@formatAlertMessageArr utc 0 "Shop" (@analyzeInventory utc 0 [item "Milk" 2 (DateAt noon)] 7 5))
   = fst (@formatAlertMessageArr utc 1000 "Shop" (@analyzeInventory utc 0 [item "Milk" 2 (DateAt noon)] 7 5))).
Proof.
  split; [reflexivity|].
  apply (@composer_deterministic utc 0 1000 "Shop"
           (@analyzeInventory utc 0 [item "Milk" 2 (DateAt noon)] 7 5)).
  reflexivity.
Defined.

(** ** The subscriber loop *)

Section DispatchFacts.
Context `{Locale} {World : Type} `{Host World}.

Lemma deliver_step message (st : Dispatch World) id sub :
  ds_users st !! id = Some sub ->
  ∃ d w1, ds_log (deliver message st (id, sub)) = ds_log st ++ [d] ∧
       dl_id d = id ∧ dl_chatId d = chatId sub ∧
       sendMessage (chatId sub) message (ds_world st) = (dl_outcome d, w1) ∧
       dl_effect d = ruledEffect (writeRejects w1) (clock w1) (dl_outcome d) ∧
       ds_world (deliver message st (id, sub)) = worldAfter d w1 ∧
       ds_users (deliver message st (id, sub)) !! id = effectOn d sub ∧
       (∀ j, j ≠ id ->
             ds_users (deliver message st (id, sub)) !! j = ds_users st !! j).
Proof.
  intros Hid. unfold deliver, refUpdate, refDelete. rewrite Hid.
  destruct (sendMessage (chatId sub) message (ds_world st)) as [[res|] w].
  - destruct (success res) eqn:Hs; [|destruct (blocked res) eqn:Hb];
      try destruct (writeRejects w) eqn:Hw;
      cbn [ds_log ds_users ds_world]; eexists _, w; (split; [reflexivity|]);
      unfold ruledEffect, worldAfter, effectOn; cbn [dl_id dl_chatId dl_outcome dl_effect];
      rewrite ?Hs, ?Hb, ?Hw; repeat split; eauto; intros;
      by simplify_map_eq.
  - cbn [ds_log ds_users ds_world]. eexists _, w. split; [reflexivity|].
    unfold ruledEffect, worldAfter, effectOn. cbn. repeat split; eauto.
Qed.

Lemma sendToSubscribers_spec message docs (st : Dispatch World) :
  NoDup docs.*1 ->
  (∀ id sub, (id, sub) ∈ docs -> ds_users st !! id = Some sub) ->
  ∃ ds,
    ds_log (sendToSubscribers message docs st) = ds_log st ++ ds ∧
    map dl_id ds = docs.*1 ∧
    Forall effectAgrees ds ∧
    Replays message (ds_world st) ds (ds_world (sendToSubscribers message docs st)) ∧
    (∀ d sub, d ∈ ds -> (dl_id d, sub) ∈ docs -> dl_chatId d = chatId sub) ∧
    (∀ d sub, d ∈ ds -> (dl_id d, sub) ∈ docs ->
              ds_users (sendToSubscribers message docs st) !! dl_id d = effectOn d sub) ∧
    (∀ j, j ∉ docs.*1 ->
          ds_users (sendToSubscribers message docs st) !! j = ds_users st !! j).
Proof.
  revert st. induction docs as [|[id sub] rest IH]; intros st Hnd Hin.
  - exists []. cbn. rewrite app_nil_r. repeat split; try done; [constructor| |].
    all: intros d sub Hd; by apply elem_of_nil in Hd.
  - cbn in Hnd. apply NoDup_cons in Hnd as [Hfresh Hnd].
    destruct (deliver_step message st id sub)
      as (d & w1 & Hlog & Hdid & Hchat & Hsend & Heff & Hworld & Hself & Hother).
    { apply Hin. left. }
    destruct (IH (deliver message st (id, sub)) Hnd)
      as (ds & Hlog' & Hids & Hall & Hreplay & Hchats & Hown & Hrest).
    { intros id' sub' Hmem. rewrite Hother.
      - apply Hin. by right.
      - intros ->. apply Hfresh. apply list_elem_of_fmap. by exists (id, sub'). }
    change (sendToSubscribers message ((id, sub) :: rest) st)
      with (sendToSubscribers message rest (deliver message st (id, sub))).
    exists (d :: ds). split; [|split; [|split; [|split; [|split; [|split]]]]].
    + rewrite Hlog', Hlog, <- app_assoc. done.
    + cbn. by rewrite Hdid, Hids.
    + constructor; [by eexists _, _|done].
    + apply (ReplaysNext message _ w1); [by rewrite Hchat | done |].
      by rewrite <- Hworld.
    + intros d0 sub0 Hd0 Hmem. apply elem_of_cons in Hd0 as [->|Hd0].
      * rewrite Hdid in *.
        apply elem_of_cons in Hmem as [Heq|Hmem]; [by inversion Heq|].
        exfalso. apply Hfresh. apply list_elem_of_fmap. by exists (id, sub0).
      * apply Hchats; [done|].
        apply elem_of_cons in Hmem as [Heq|Hmem]; [|done].
        exfalso. apply Hfresh. rewrite <- Hids. inversion Heq; subst.
        apply list_elem_of_fmap. by exists d0.
    + intros d0 sub0 Hd0 Hmem. apply elem_of_cons in Hd0 as [->|Hd0].
      * rewrite Hdid in *. rewrite Hrest by done. rewrite Hself.
        apply elem_of_cons in Hmem as [Heq|Hmem]; [by inversion Heq|].
        exfalso. apply Hfresh. apply list_elem_of_fmap. by exists (id, sub0).
      * apply Hown; [done|].
        apply elem_of_cons in Hmem as [Heq|Hmem]; [|done].
        exfalso. apply Hfresh. rewrite <- Hids. inversion Heq; subst.
        apply list_elem_of_fmap. by exists d0.
    + intros j Hj. cbn in Hj. apply not_elem_of_cons in Hj as [Hne Hj].
      rewrite Hrest by done. by apply Hother.
Qed.

Lemma deliver_counts message (st : Dispatch World) doc :
  ds_alertsSent st = length (filter (fun d => isUpdate d = true) (ds_log st)) ->
  ds_alertsSent (deliver message st doc)
  = length (filter (fun d => isUpdate d = true) (ds_log (deliver message st doc))).
Proof.
  intros Hinv. destruct doc as [id sub]. unfold deliver, refUpdate.
  destruct (sendMessage (chatId sub) message (ds_world st)) as [[res|] w];
    [destruct (success res);
       [destruct (writeRejects w); [|destruct (ds_users st !! id)]
       |destruct (blocked res); [destruct (writeRejects w)|]]|];
    cbn [ds_log ds_alertsSent]; rewrite filter_app, length_app, <- Hinv;
    rewrite filter_cons, filter_nil; unfold isUpdate; cbn [dl_effect];
    case_decide; try done; cbn [length]; lia.
Qed.

Lemma sendToSubscribers_counts message docs (st : Dispatch World) :
  ds_alertsSent st = length (filter (fun d => isUpdate d = true) (ds_log st)) ->
  ds_alertsSent (sendToSubscribers message docs st)
  = length (filter (fun d => isUpdate d = true)
              (ds_log (sendToSubscribers message docs st))).
Proof.
  revert st. induction docs as [|doc docs IH]; intros st Hinv; [done|].
  apply IH. by apply deliver_counts.
Qed.

(** The number that [processStoreAlerts] returns is the number of
    subscribers whose [lastAlertSent] it wrote. *)
Lemma alerts_count_updates store (w : World) n :
  run_completion (processStoreAlerts store w) = Returns n ->
  n = length (filter (fun d => isUpdate d = true)
                (run_deliveries (processStoreAlerts store w))).
Proof.
  unfold processStoreAlerts.
  destruct (st_usersGetFails store); [done|].
  destruct (length (map_to_list (st_users store)) =? 0)%nat; [by intros [= <-]|].
  destruct (st_inventoryGetFails store); [done|].
  destruct (length (st_inventory store) =? 0)%nat; [by intros [= <-]|].
  destruct (noAlerts _); [by intros [= <-]|].
  cbn [run_completion run_deliveries]. intros [= <-].
  by apply sendToSubscribers_counts.
Qed.

(** A call of [processStoreAlerts] either stops before it composes a
    message, and then does nothing, or sends to every subscriber of the
    snapshot once. *)
Lemma processStoreAlerts_cases store (w : World) :
  let r := processStoreAlerts store w in
  (run_message r = None ∧ run_deliveries r = [] ∧ run_users r = st_users store ∧
   run_world r ∈ [settle w; settle (settle (settle w))] ∧
   (run_completion r = Returns 0 ∨ run_completion r = Throws)) ∨
  (∃ message n, run_message r = Some message ∧ run_completion r = Returns n ∧
     map dl_id (run_deliveries r) = (map_to_list (st_users store)).*1 ∧
     Forall effectAgrees (run_deliveries r) ∧
     Replays message (settle (settle (settle w))) (run_deliveries r) (run_world r) ∧
     (∀ d sub, d ∈ run_deliveries r -> st_users store !! dl_id d = Some sub ->
               dl_chatId d = chatId sub) ∧
     (∀ d sub, d ∈ run_deliveries r -> st_users store !! dl_id d = Some sub ->
               run_users r !! dl_id d = effectOn d sub)).
Proof.
  cbn zeta. unfold processStoreAlerts.
  destruct (st_usersGetFails store);
    [left; cbn; repeat split; [set_solver | by right]|].
  destruct (length (map_to_list (st_users store)) =? 0)%nat;
    [left; cbn; repeat split; [set_solver | by left]|].
  destruct (st_inventoryGetFails store);
    [left; cbn; repeat split; [set_solver | by right]|].
  destruct (length (st_inventory store) =? 0)%nat;
    [left; cbn; repeat split; [set_solver | by left]|].
  destruct (noAlerts _);
    [left; cbn; repeat split; [set_solver | by left]|].
  right. cbn [run_message run_completion run_deliveries run_users run_world].
  match goal with
  | |- context [sendToSubscribers ?m ?docs ?st] =>
      destruct (sendToSubscribers_spec m docs st)
        as (ds & Hlog & Hids & Hall & Hreplay & Hchats & Hown & _)
  end.
  { apply NoDup_fst_map_to_list. }
  { intros id sub Hmem. cbn. by apply elem_of_map_to_list. }
  cbn [ds_log ds_world app] in Hlog, Hreplay. rewrite Hlog.
  eexists _, _. repeat split; try done.
  - intros d sub Hd Hsub. apply Hchats; [done|]. by apply elem_of_map_to_list.
  - intros d sub Hd Hsub. apply Hown; [done|]. by apply elem_of_map_to_list.
Qed.

End DispatchFacts.

Lemma NoDup_map_unique {A B} (f : A -> B) (l : list A) (x y : A) :
  NoDup (map f l) -> x ∈ l -> y ∈ l -> f x = f y -> x = y.
Proof.
  induction l as [|a l IH]; intros Hnd Hx Hy Hf.
  - by apply elem_of_nil in Hx.
  - cbn in Hnd. apply NoDup_cons in Hnd as [Hfresh Hnd].
    apply elem_of_cons in Hx as [->|Hx]; apply elem_of_cons in Hy as [->|Hy].
    + done.
    + exfalso. apply Hfresh. rewrite Hf. apply list_elem_of_fmap. by exists y.
    + exfalso. apply Hfresh. rewrite <- Hf. apply list_elem_of_fmap. by exists x.
    + by apply IH.
Qed.

Section RunFacts.
Context `{Locale} {World : Type} `{Host World}.

(** The conditions of the delivery rule, read off the one delivery that a
    call makes to a subscriber. *)
Lemma delivery_conditions (r : StoreRun World) id d0 :
  d0 ∈ run_deliveries r -> dl_id d0 = id ->
  (∀ d, d ∈ run_deliveries r -> dl_id d = id -> d = d0) ->
  (sendSucceeded r id ↔ ∃ res, dl_outcome d0 = SendReturns res ∧ success res = true) ∧
  (reportedBlocked r id ↔ ∃ res, dl_outcome d0 = SendReturns res ∧ blocked res = true) ∧
  (timestampUpdated r id ↔ ∃ ts, dl_effect d0 = Updated ts) ∧
  (writeRejected r id ↔ dl_effect d0 = WriteFailed).
Proof.
  intros Hd0 Hid0 Huniq.
  unfold sendSucceeded, reportedBlocked, timestampUpdated, writeRejected.
  split; [|split; [|split]]; split.
  - intros (d & res & Hd & Hid & Hout & Hs).
    rewrite (Huniq d Hd Hid) in Hout. by exists res.
  - intros (res & Hout & Hs). by exists d0, res.
  - intros (d & res & Hd & Hid & Hout & Hb).
    rewrite (Huniq d Hd Hid) in Hout. by exists res.
  - intros (res & Hout & Hb). by exists d0, res.
  - intros (d & ts & Hd & Hid & Heff).
    rewrite (Huniq d Hd Hid) in Heff. by exists ts.
  - intros (ts & Heff). by exists d0, ts.
  - intros (d & Hd & Hid & Heff). by rewrite (Huniq d Hd Hid) in Heff.
  - intros Heff. by exists d0.
Qed.

(** The delivery rule, with the conditions as the loop body has them,
    holds of every call of [processStoreAlerts] in which the gateway gave
    one answer at a time. *)
Lemma deliveryRule_holds store (w : World) :
  oneAnswerEach (processStoreAlerts store w) = true ->
  deliveryRule updateIfWritten deleteIfWritten store (processStoreAlerts store w).
Proof.
  intros Hone id sub Hsub. unfold updateIfWritten, deleteIfWritten.
  destruct (processStoreAlerts_cases store w)
    as [(_ & Hnone & Husers & _) | (m & n & _ & _ & Hids & Hall & _ & _ & Hown)].
  - rewrite Husers, Hsub.
    unfold timestampUpdated, sendSucceeded, reportedBlocked, writeRejected.
    rewrite Hnone.
    split; [|split; [|split]].
    + split; [intros (d & ? & Hd & _) | intros [(d & ? & Hd & _) _]];
        by apply elem_of_nil in Hd.
    + split; [done | intros [(d & ? & Hd & _) _]; by apply elem_of_nil in Hd].
    + intros d ts Hd. by apply elem_of_nil in Hd.
    + done.
  - set (r := processStoreAlerts store w) in *.
    assert (Hnd : NoDup (map dl_id (run_deliveries r))).
    { rewrite Hids. apply NoDup_fst_map_to_list. }
    assert (Hex : ∃ d0, d0 ∈ run_deliveries r ∧ dl_id d0 = id).
    { assert (Hmem : id ∈ map dl_id (run_deliveries r)).
      { rewrite Hids. apply list_elem_of_fmap. exists (id, sub).
        split; [done|]. by apply elem_of_map_to_list. }
      apply list_elem_of_fmap in Hmem as (d0 & -> & Hd0). by exists d0. }
    destruct Hex as (d0 & Hd0 & Hid0).
    assert (Huniq : ∀ d, d ∈ run_deliveries r -> dl_id d = id -> d = d0).
    { intros d Hd Hid. apply (NoDup_map_unique dl_id (run_deliveries r)); try done.
      by rewrite Hid, Hid0. }
    assert (Hagree : effectAgrees d0).
    { rewrite Forall_forall in Hall. by apply Hall. }
    assert (Hfinal : run_users r !! id = effectOn d0 sub).
    { rewrite <- Hid0. apply Hown; [done|]. by rewrite Hid0. }
    assert (Hone0 : oneAnswer d0 = true).
    { unfold oneAnswerEach in Hone. rewrite forallb_forall in Hone.
      apply Hone. by apply list_elem_of_In. }
    destruct (delivery_conditions r id d0 Hd0 Hid0 Huniq) as (Hs & Hb & Hu & Hw).
    rewrite Hs, Hb, Hu, Hw, Hfinal. clear Hs Hb Hu Hw.
    split; [|split; [|split]].
    4: { intros Hnu Hndel. unfold effectOn.
         destruct Hagree as (rej & now & Heff). unfold ruledEffect in Heff.
         unfold oneAnswer in Hone0.
         destruct (dl_outcome d0) as [res|]; [|by rewrite Heff].
         destruct (success res) eqn:Es.
         - destruct rej; rewrite Heff in *; [done|].
           exfalso. apply Hnu. split; [by exists res | done].
         - destruct (blocked res) eqn:Eb; [|by rewrite Heff].
           destruct rej; rewrite Heff in *; [done|].
           exfalso. apply Hndel. split; [by exists res | done]. }
    3: { intros d ts Hd Hid Heff. rewrite (Huniq d Hd Hid) in Heff.
         unfold effectOn. by rewrite Heff. }
    + destruct Hagree as (rej & now & Heff). unfold ruledEffect in Heff.
      split.
      * intros [ts Hts]. rewrite Hts in Heff.
        destruct (dl_outcome d0) as [res|]; [|done].
        destruct (success res) eqn:Es.
        { split; [by exists res | by rewrite Hts]. }
        destruct (blocked res), rej; done.
      * intros [(res & Hout & Es) Hnw]. rewrite Hout, Es in Heff.
        destruct rej; [done|]. by exists now.
    + destruct Hagree as (rej & now & Heff). unfold ruledEffect in Heff.
      unfold effectOn, oneAnswer in *.
      split.
      * intros Hgone. destruct (dl_effect d0) eqn:Ee; try done.
        destruct (dl_outcome d0) as [res|]; [|done].
        destruct (success res) eqn:Es; [by destruct rej|].
        destruct (blocked res) eqn:Eb; [|done].
        split; [by exists res | done].
      * intros [(res & Hout & Eb) Hnw]. rewrite Hout in Heff, Hone0.
        rewrite Eb in Hone0. destruct (success res) eqn:Es; [done|].
        rewrite Eb in Heff. destruct rej; [done|]. by rewrite Heff.
Qed.


Lemma processStore_stats (st : RunState World) store :
  let r := processStoreAlerts store (rs_world st) in
  rs_runs (processStore st store) = rs_runs st ++ [(store, r)] ∧
  totalAlertsSent (rs_stats (processStore st store))
    = (totalAlertsSent (rs_stats st) + alertsOf r)%nat ∧
  successCount (rs_stats (processStore st store))
    = (successCount (rs_stats st) + (if decide (0 < alertsOf r)%nat then 1 else 0))%nat ∧
  failureCount (rs_stats (processStore st store))
    = (failureCount (rs_stats st)
       + (if decide (run_completion r = Throws) then 1 else 0))%nat.
Proof.
  cbn zeta. unfold processStore, alertsOf.
  destruct (run_completion (processStoreAlerts store (rs_world st))) as [n|];
    cbn [rs_runs rs_stats].
  - split; [done|]. destruct n as [|n]; cbn.
    + case_decide; [lia|]. case_decide; [done|]. lia.
    + case_decide; [|lia]. case_decide; [done|]. lia.
  - split; [done|]. cbn. case_decide; [lia|]. case_decide; [|done]. lia.
Qed.

Lemma storeLoop_spec stores (st0 : RunState World) :
  let st := fold_left processStore stores st0 in
  ∃ rs,
    rs_runs st = rs_runs st0 ++ rs ∧
    map fst rs = stores ∧
    Forall (fun p => ∃ w', snd p = processStoreAlerts (fst p) w') rs ∧
    totalAlertsSent (rs_stats st)
      = (totalAlertsSent (rs_stats st0) + totalAlertsSent (tally rs))%nat ∧
    successCount (rs_stats st)
      = (successCount (rs_stats st0) + successCount (tally rs))%nat ∧
    failureCount (rs_stats st)
      = (failureCount (rs_stats st0) + failureCount (tally rs))%nat.
Proof.
  cbn zeta. revert st0. induction stores as [|store stores IH]; intros st0.
  - exists []. rewrite app_nil_r. unfold tally. cbn.
    repeat split; done.
  - destruct (processStore_stats st0 store) as (Hruns & Htot & Hsucc & Hfail).
    destruct (IH (processStore st0 store)) as (rs & Hruns' & Hmap & Hall & Htot' & Hsucc' & Hfail').
    cbn [fold_left].
    exists ((store, processStoreAlerts store (rs_world st0)) :: rs).
    split; [|split; [|split; [|split; [|split]]]].
    + rewrite Hruns', Hruns, <- app_assoc. done.
    + cbn. by rewrite Hmap.
    + constructor; [by exists (rs_world st0)|done].
    + rewrite Htot', Htot. cbn. lia.
    + rewrite Hsucc', Hsucc. cbn [tally successCount].
      rewrite filter_cons. cbn [snd].
      destruct (decide (0 < alertsOf (processStoreAlerts store (rs_world st0)))%nat);
        cbn [length]; lia.
    + rewrite Hfail', Hfail. cbn [tally failureCount].
      rewrite filter_cons. cbn [snd].
      destruct (decide (run_completion (processStoreAlerts store (rs_world st0)) = Throws));
        cbn [length]; lia.
Qed.

End RunFacts.

(** ** Properties of delivery and of the run *)

Section RunProperties.
Context `{Locale} {World : Type} `{Host World}.

(** C1, as amended. For every store processed in a run in which the
    gateway gave one answer at a time (success, recipient unreachable, or
    failure), and for every subscriber of that store: [lastAlertSent] is
    written exactly when the send to the subscriber returned success and
    the update was not rejected, and then the record holds the new time;
    the record is deleted exactly when the gateway reported the recipient
    unreachable and the delete was not rejected; in every other case (a
    plain failure, a thrown error, a rejected write) the record is as it
    was. When a digest was composed, every subscriber of the snapshot is
    sent to once on their own chat, whatever happened to the ones before,
    and the deliveries replay the host: each outcome is the answer of the
    gateway to that send, and the time written is the reading of the clock
    once the send has returned. *)
Theorem delivery_rule_of_the_run db (w : World) st store r :
  dailyTelegramAlerts db w = JobReturns st ->
  (store, r) ∈ rs_runs st ->
  oneAnswerEach r = true ->
  deliveryRule updateIfWritten deleteIfWritten store r ∧
  (∀ message, run_message r = Some message ->
     map dl_id (run_deliveries r) = (map_to_list (st_users store)).*1 ∧
     (∀ d sub, d ∈ run_deliveries r -> st_users store !! dl_id d = Some sub ->
               dl_chatId d = chatId sub) ∧
     ∃ w0, Replays message w0 (run_deliveries r) (run_world r)) ∧
  (run_message r = None ->
   run_deliveries r = [] ∧ run_users r = st_users store).
Proof.
  unfold dailyTelegramAlerts. destruct (db_storesGetFails db); [done|].
  intros [= <-] Hmem.
  match goal with
  | _ : context [fold_left processStore ?ss ?s0] |- _ =>
      destruct (storeLoop_spec ss s0) as (rs & Hruns & _ & Hall & _)
  end.
  cbn zeta in Hruns. rewrite Hruns in Hmem. cbn [rs_runs app] in Hmem.
  rewrite Forall_forall in Hall.
  destruct (Hall _ Hmem) as [w' Hr]. cbn [fst snd] in Hr. subst r.
  intros Hone. split; [by apply deliveryRule_holds|].
  destruct (processStoreAlerts_cases store w')
    as [(Hnone & Hds & Husers & _) | (m & n & Hsome & _ & Hids & _ & Hreplay & Hchats & _)].
  - split; [|done]. rewrite Hnone. by intros ? [=].
  - split; [|by rewrite Hsome].
    intros message Hm. rewrite Hsome in Hm. injection Hm as <-.
    split; [done|]. split; [done|]. by eexists.
Qed.

(** C4. When the list of stores can be read, the run returns its
    statistics; it has processed every store of the list, in order, each
    by one call of [processStoreAlerts]; the failure count is the number of
    stores whose call threw, the success count the number of stores with at
    least one alert sent, and the total the sum of the alerts sent. *)
Theorem store_failures_are_isolated db (w : World) :
  db_storesGetFails db = false ->
  ∃ st,
    dailyTelegramAlerts db w = JobReturns st ∧
    map fst (rs_runs st) = db_stores db ∧
    Forall (fun p => ∃ w', snd p = processStoreAlerts (fst p) w') (rs_runs st) ∧
    failureCount (rs_stats st)
      = length (filter (fun p => run_completion (snd p) = Throws) (rs_runs st)) ∧
    successCount (rs_stats st)
      = length (filter (fun p => (0 < alertsOf (snd p))%nat) (rs_runs st)) ∧
    totalAlertsSent (rs_stats st)
      = sum_list (map (fun p => alertsOf (snd p)) (rs_runs st)).
Proof.
  intros Hread. unfold dailyTelegramAlerts. rewrite Hread.
  eexists. split; [reflexivity|].
  match goal with
  | |- context [fold_left processStore ?ss ?s0] =>
      destruct (storeLoop_spec ss s0) as (rs & Hruns & Hmap & Hall & Htot & Hsucc & Hfail)
  end.
  cbn zeta in *. cbn [rs_runs rs_stats app totalAlertsSent successCount failureCount] in *.
  rewrite Hruns, Htot, Hsucc, Hfail. done.
Qed.

(** C5. When the classification of a store has three empty lists, the
    call composes no message, attempts no delivery, leaves the gateway and
    the subscribers alone and returns zero alerts. *)
Theorem nothing_to_send store (w : World) c :
  run_classified (processStoreAlerts store w) = Some c ->
  expired c = [] -> nearExpiry c = [] -> lowStock c = [] ->
  let r := processStoreAlerts store w in
  let w3 := settle (settle (settle w)) in
  c = analyzeInventory (clock w3) (st_inventory store)
        (expiryWarningDays (getStoreSettings store))
        (lowStockThreshold (getStoreSettings store)) ∧
  run_message r = None ∧
  run_deliveries r = [] ∧
  run_completion r = Returns 0 ∧
  alertsOf r = 0%nat ∧
  run_users r = st_users store ∧
  run_world r = w3.
Proof.
  cbn zeta. unfold alertsOf, processStoreAlerts.
  destruct (st_usersGetFails store); [done|].
  destruct (length (map_to_list (st_users store)) =? 0)%nat; [done|].
  destruct (st_inventoryGetFails store); [done|].
  destruct (length (st_inventory store) =? 0)%nat; [done|].
  destruct (noAlerts _) eqn:Hno; cbn [run_classified].
  - intros [= <-] _ _ _. done.
  - intros [= <-] He Hn Hl. unfold noAlerts in Hno.
    rewrite He, Hn, Hl in Hno. done.
Qed.

(** C9. Two settings documents that differ only in [enableExpiryAlerts]
    and [enableLowStockAlerts] give the same call of [processStoreAlerts]:
    the same classification, digest, deliveries, subscriber records and
    result. *)
Theorem enable_flags_are_ignored store (w : World) threshold days
    (expiry1 low1 expiry2 low2 : option bool) :
  processStoreAlerts
    (withConfig (Some {| cfg_lowStockThreshold := threshold;
                         cfg_expiryWarningDays := days;
                         cfg_enableExpiryAlerts := expiry1;
                         cfg_enableLowStockAlerts := low1 |}) store) w
  = processStoreAlerts
      (withConfig (Some {| cfg_lowStockThreshold := threshold;
                           cfg_expiryWarningDays := days;
                           cfg_enableExpiryAlerts := expiry2;
                           cfg_enableLowStockAlerts := low2 |}) store) w.
Proof.
  unfold processStoreAlerts, getStoreSettings, withConfig.
  cbn [st_id st_name st_users st_config st_inventory st_usersGetFails
       st_configGetFails st_inventoryGetFails].
  destruct (st_configGetFails store); reflexivity.
Qed.




End RunProperties.

(** C1, as the specification words it, fails: when the update that follows
    a successful send is rejected, the [catch] of the loop body leaves
    [lastAlertSent] as it was, although the send returned success. *)
Lemma updated_iff_sent_fails :
  ¬ (∀ (L : Locale) (World : Type) (Hst : Host World) db (w : World) st store r,
        dailyTelegramAlerts db w = JobReturns st ->
        (store, r) ∈ rs_runs st ->
        oneAnswerEach r = true ->
        deliveryRule updateIfSent deleteIfBlocked store r).
Proof.
  intros Hrule.
  assert (Hmem : (plainShop, plainShopRun readOnlyHost) ∈ rs_runs (plainRun readOnlyHost)).
  { vm_compute. left. }
  destruct (Hrule utc _ readOnlyHost plainDb demoStart (plainRun readOnlyHost)
              plainShop (plainShopRun readOnlyHost)
              eq_refl Hmem eq_refl "u1" (subscriber 1) eq_refl) as ([_ Hupd] & _).
  assert (Hsent : updateIfSent (plainShopRun readOnlyHost) "u1").
  { exists {| dl_id := "u1"; dl_chatId := 1;
              dl_outcome := SendReturns {| success := true; blocked := false |};
              dl_effect := WriteFailed |},
           {| success := true; blocked := false |}.
    split; [|repeat split; reflexivity]. vm_compute. repeat first [left | right]. }
  destruct (Hupd Hsent) as (d & ts & Hd & _ & Heff).
  vm_compute in Hd.
  repeat (apply elem_of_cons in Hd as [->|Hd]; [discriminate|]).
  by apply elem_of_nil in Hd.
Qed.

Lemma delivery_rule_of_the_run_witness :
  @dailyTelegramAlerts utc _ demoHost plainDb demoStart = JobReturns (plainRun demoHost) ∧
  (plainShop, plainShopRun demoHost) ∈ rs_runs (plainRun demoHost) ∧
  oneAnswerEach (plainShopRun demoHost) = true ∧
  deliveryRule updateIfWritten deleteIfWritten plainShop (plainShopRun demoHost).
Proof.
  assert (Hmem : (plainShop, plainShopRun demoHost) ∈ rs_runs (plainRun demoHost)).
  { vm_compute. left. }
  split; [reflexivity|]. split; [exact Hmem|]. split; [reflexivity|].
  apply (@delivery_rule_of_the_run utc _ demoHost plainDb demoStart (plainRun demoHost)
           plainShop (plainShopRun demoHost) eq_refl Hmem eq_refl).
Defined.

Lemma store_failures_are_isolated_witness :
  db_storesGetFails demoDb = false ∧
  ∃ st, @dailyTelegramAlerts utc _ demoHost demoDb demoStart = JobReturns st ∧
        map fst (rs_runs st) = db_stores demoDb.
Proof.
  split; [reflexivity|].
  destruct (@store_failures_are_isolated utc _ demoHost demoDb demoStart eq_refl)
    as (st & Hjob & Hstores & _).
  exists st. split; [exact Hjob | exact Hstores].
Defined.

Lemma nothing_to_send_witness :
  run_classified (@processStoreAlerts utc _ demoHost quietShop demoStart)
    = Some {| expired := []; nearExpiry := []; lowStock := [] |} ∧
  run_message (@processStoreAlerts utc _ demoHost quietShop demoStart) = None ∧
  run_deliveries (@processStoreAlerts utc _ demoHost quietShop demoStart) = [].
Proof.
  split; [reflexivity|].
  destruct (@nothing_to_send utc _ demoHost quietShop demoStart
              {| expired := []; nearExpiry := []; lowStock := [] |}
              eq_refl eq_refl eq_refl eq_refl) as (_ & Hm & Hd & _).
  split; [exact Hm | exact Hd].
Defined.

(** With both flags switched off in the settings document, the store of
    the example still gets its low stock alert. *)
Example flags_off_still_alerts :
  let off := Some {| cfg_lowStockThreshold := None; cfg_expiryWarningDays := None;
                     cfg_enableExpiryAlerts := Some false;
                     cfg_enableLowStockAlerts := Some false |} in
  run_completion (@processStoreAlerts utc _ demoHost (withConfig off demoShop) demoStart)
  = Returns 2.
Proof. reflexivity. Qed.

(** The example of the specification: a store without subscribers has no
    delivery attempt, adds nothing to the total and is not a failure. *)
Example store_without_subscribers :
  let r := @processStoreAlerts utc _ demoHost lonelyShop demoStart in
  run_deliveries r = [] ∧ run_completion r = Returns 0 ∧ run_message r = None.
Proof. cbn zeta. repeat split; reflexivity. Qed.

(** * Further properties *)

(** ** Days, ranges and order in the classifier *)

Lemma oneDayMs_pos : 0 < oneDayMs.
Proof. unfold oneDayMs. lia. Qed.

Section ClassifierExtras.
Context `{Locale}.

Lemma setHours0_localDay t : setHours0 t = oneDayMs * localDay t - tzOffsetMs.
Proof.
  unfold setHours0, localDay.
  pose proof (Z.div_mod (t + tzOffsetMs) oneDayMs) as Hdm.
  pose proof oneDayMs_pos. lia.
Qed.

(** X1. Days until expiry is the number of the local calendar day of the
    expiry date minus the number of the local calendar day of the run: the
    times of day of the two instants play no part. *)
Theorem days_are_calendar_days now ms :
  daysUntil (setHours0 now) (newDate0 (DateAt ms))
  = Some (localDay ms - localDay now).
Proof.
  unfold daysUntil, newDate0, Js.ceilDiv. f_equal.
  rewrite !setHours0_localDay.
  replace (- (oneDayMs * localDay ms - tzOffsetMs
              - (oneDayMs * localDay now - tzOffsetMs)))
    with ((localDay now - localDay ms) * oneDayMs) by lia.
  rewrite Z.div_mul by (pose proof oneDayMs_pos; lia). lia.
Qed.

Lemma strOr_nonempty x d : d ≠ EmptyString -> Js.strOr x d ≠ EmptyString.
Proof. intros Hd. destruct x as [[|c s]|]; done. Qed.

(** X2. Whatever the snapshot holds, every expired entry has a
    non-negative [daysExpired], every near-expiry entry has
    [1 <= daysUntilExpiry <= expiryWarningDays], every low stock entry has
    [quantity <= lowStockThreshold], and no entry has an empty name. With
    a warning period of zero days or less, the near-expiry list is empty. *)
Theorem entries_are_in_range now inventory ewd lst :
  let r := analyzeInventory now inventory ewd lst in
  Forall (fun e => 0 <= ex_daysExpired e ∧ ex_name e ≠ EmptyString) (expired r) ∧
  Forall (fun e => 1 <= ne_daysUntilExpiry e <= ewd ∧ ne_name e ≠ EmptyString)
         (nearExpiry r) ∧
  Forall (fun e => ls_quantity e <= lst ∧ ls_name e ≠ EmptyString) (lowStock r) ∧
  (ewd <= 0 -> nearExpiry r = []).
Proof.
  cbn zeta. unfold analyzeInventory. cbn [expired nearExpiry lowStock].
  rewrite classifyAll_spec. cbn [expired nearExpiry lowStock].
  assert (Hnear : Forall (fun e => 1 <= ne_daysUntilExpiry e <= ewd ∧ ne_name e ≠ EmptyString)
            (Js.sort (λ a b, ne_daysUntilExpiry a - ne_daysUntilExpiry b)
               (omap (specNearExpiry (wholeDays (setHours0 now)) ewd) inventory))).
  { rewrite sort_perm. apply Forall_forall. intros e He.
    apply list_elem_of_omap in He as (i & _ & Hsel). unfold specNearExpiry in Hsel.
    destruct (item_expiryDate i); try done. case_decide; [|done].
    injection Hsel as <-. cbn. split; [lia|]. by apply strOr_nonempty. }
  split; [|split; [exact Hnear|split]].
  - rewrite sort_perm. apply Forall_forall. intros e He.
    apply list_elem_of_omap in He as (i & _ & Hsel). unfold specExpired in Hsel.
    destruct (item_expiryDate i); try done. case_decide; [|done].
    injection Hsel as <-. cbn. split; [lia|]. by apply strOr_nonempty.
  - rewrite sort_perm. apply Forall_forall. intros e He.
    apply list_elem_of_omap in He as (i & _ & Hsel). unfold specLowStock in Hsel.
    case_decide; [|done].
    injection Hsel as <-. cbn. split; [lia|]. by apply strOr_nonempty.
  - intros Hewd.
    destruct (Js.sort _ _) as [|e l]; [done|].
    apply Forall_cons in Hnear as [[Hrange _] _]. lia.
Qed.

Lemma sorted_Z_unique (a b : list Z) :
  StronglySorted Z.le a -> StronglySorted Z.le b -> a ≡ₚ b -> a = b.
Proof.
  intros Ha. revert b. induction Ha as [|x a Ha IH Hx]; intros b Hb Hp.
  - symmetry. by apply Permutation_nil.
  - destruct Hb as [|y b Hb Hy].
    { apply Permutation_length in Hp. done. }
    assert (x = y) as ->.
    { assert (Hxb : x ∈ y :: b) by (rewrite <- Hp; left).
      assert (Hya : y ∈ x :: a) by (rewrite Hp; left).
      rewrite Forall_forall in Hx, Hy.
      apply elem_of_cons in Hxb as [?|Hxb]; [done|].
      apply elem_of_cons in Hya as [?|Hya]; [done|].
      specialize (Hx _ Hya). specialize (Hy _ Hxb). lia. }
    f_equal. apply IH; [done|]. by apply Permutation_cons_inv in Hp.
Qed.

Lemma sorted_keys {A} (key : A -> Z) (l : list A) :
  StronglySorted (keyLe key) l -> StronglySorted Z.le (map key l).
Proof.
  induction 1 as [|x l Hl IH Hx]; cbn; constructor; [done|].
  rewrite Forall_forall in Hx. apply Forall_forall. intros k Hk.
  apply list_elem_of_fmap in Hk as (y & -> & Hy). by apply Hx.
Qed.

Lemma map_opp_inj {A} (f : A -> Z) (l1 l2 : list A) :
  map (fun e => - f e) l1 = map (fun e => - f e) l2 -> map f l1 = map f l2.
Proof.
  revert l2. induction l1 as [|x l1 IH]; intros [|y l2] Heq; try done.
  cbn in *. injection Heq as Hxy Heq. f_equal; [lia|by apply IH].
Qed.

Lemma keys_of_sorted {A} (key : A -> Z) (l1 l2 : list A) :
  StronglySorted (keyLe key) l1 -> StronglySorted (keyLe key) l2 ->
  l1 ≡ₚ l2 -> map key l1 = map key l2.
Proof.
  intros Hs1 Hs2 Hp. apply sorted_Z_unique.
  - by apply sorted_keys.
  - by apply sorted_keys.
  - by apply Permutation_map.
Qed.

(** X3. The order of the documents in the snapshot shows only among
    entries with equal keys: two snapshots that hold the same items in any
    two orders give lists with the same entries and the same sequence of
    keys. *)
Theorem classification_ignores_snapshot_order now inventory inventory' ewd lst :
  inventory ≡ₚ inventory' ->
  let r := analyzeInventory now inventory ewd lst in
  let r' := analyzeInventory now inventory' ewd lst in
  (expired r ≡ₚ expired r' ∧ nearExpiry r ≡ₚ nearExpiry r' ∧
   lowStock r ≡ₚ lowStock r') ∧
  map ex_daysExpired (expired r) = map ex_daysExpired (expired r') ∧
  map ne_daysUntilExpiry (nearExpiry r) = map ne_daysUntilExpiry (nearExpiry r') ∧
  map ls_quantity (lowStock r) = map ls_quantity (lowStock r').
Proof.
  intros Hp. cbn zeta. unfold analyzeInventory. cbn [expired nearExpiry lowStock].
  rewrite !classifyAll_spec. cbn [expired nearExpiry lowStock].
  assert (He : Js.sort (λ a b, ex_daysExpired b - ex_daysExpired a)
                 (omap (specExpired (wholeDays (setHours0 now))) inventory)
               ≡ₚ Js.sort (λ a b, ex_daysExpired b - ex_daysExpired a)
                 (omap (specExpired (wholeDays (setHours0 now))) inventory'))
    by (rewrite !sort_perm; by rewrite Hp).
  assert (Hn : Js.sort (λ a b, ne_daysUntilExpiry a - ne_daysUntilExpiry b)
                 (omap (specNearExpiry (wholeDays (setHours0 now)) ewd) inventory)
               ≡ₚ Js.sort (λ a b, ne_daysUntilExpiry a - ne_daysUntilExpiry b)
                 (omap (specNearExpiry (wholeDays (setHours0 now)) ewd) inventory'))
    by (rewrite !sort_perm; by rewrite Hp).
  assert (Hl : Js.sort (λ a b, ls_quantity a - ls_quantity b)
                 (omap (specLowStock lst) inventory)
               ≡ₚ Js.sort (λ a b, ls_quantity a - ls_quantity b)
                 (omap (specLowStock lst) inventory'))
    by (rewrite !sort_perm; by rewrite Hp).
  split; [done|]. split; [|split].
  - assert (Hneg : map (λ e, - ex_daysExpired e) (Js.sort (λ a b, ex_daysExpired b - ex_daysExpired a)
                 (omap (specExpired (wholeDays (setHours0 now))) inventory))
             = map (λ e, - ex_daysExpired e) (Js.sort (λ a b, ex_daysExpired b - ex_daysExpired a)
                 (omap (specExpired (wholeDays (setHours0 now))) inventory'))).
    { apply keys_of_sorted; [| |done];
        apply (sort_sorted _ (λ e, - ex_daysExpired e)); intros; lia. }
    by apply map_opp_inj in Hneg.
  - apply keys_of_sorted; [| |done]; by apply sort_sorted.
  - apply keys_of_sorted; [| |done]; by apply sort_sorted.
Qed.

End ClassifierExtras.

Lemma omap_sublist {A B} (f g : A -> option B) (l : list A) :
  (forall x y, f x = Some y -> g x = Some y) ->
  omap f l `sublist_of` omap g l.
Proof.
  intros Hfg. induction l as [|x l IH]; [constructor|].
  change (omap f ([x] ++ l) `sublist_of` omap g ([x] ++ l)).
  rewrite !omap_app. cbn.
  destruct (f x) as [y|] eqn:Hf.
  - rewrite (Hfg _ _ Hf). cbn. by constructor.
  - destruct (g x); cbn; [by constructor|done].
Qed.

Lemma sorted_take_drop {A} (R : A -> A -> Prop) (l : list A) (n : nat) (a b : A) :
  StronglySorted R l -> a ∈ take n l -> b ∈ drop n l -> R a b.
Proof.
  intros Hs. revert n. induction Hs as [|x l Hs IH Hx]; intros n Ha Hb.
  - rewrite take_nil in Ha. by apply elem_of_nil in Ha.
  - destruct n as [|n]; cbn in Ha, Hb.
    + by apply elem_of_nil in Ha.
    + apply elem_of_cons in Ha as [->|Ha]; [|by apply (IH n)].
      rewrite Forall_forall in Hx. apply Hx.
      eapply elem_of_sublist; [exact Hb|apply sublist_drop].
Qed.

Section ClassifierSettings.
Context `{Locale}.

(** X4. The expired list does not depend on the settings. A longer
    warning period and a higher low stock threshold only add entries: the
    near-expiry and low stock lists of the smaller settings are contained,
    entry for entry, in the lists of the larger ones. *)
Theorem larger_settings_only_add now inventory ewd ewd' lst lst' :
  ewd <= ewd' -> lst <= lst' ->
  let r := analyzeInventory now inventory ewd lst in
  let r' := analyzeInventory now inventory ewd' lst' in
  expired r = expired r' ∧
  nearExpiry r ⊆+ nearExpiry r' ∧
  lowStock r ⊆+ lowStock r'.
Proof.
  intros Hewd Hlst. cbn zeta. unfold analyzeInventory.
  cbn [expired nearExpiry lowStock].
  rewrite !classifyAll_spec. cbn [expired nearExpiry lowStock].
  split; [done|]. split.
  - rewrite !sort_perm. apply sublist_submseteq, omap_sublist.
    intros i e. unfold specNearExpiry. destruct (item_expiryDate i); try done.
    repeat case_decide; try done; lia.
  - rewrite !sort_perm. apply sublist_submseteq, omap_sublist.
    intros i e. unfold specLowStock. repeat case_decide; try done; lia.
Qed.

(** X5. The entries that the digest shows of a list of the classifier
    (the first ten) are the most urgent ones: no entry left out is longer
    expired, sooner to expire or lower in stock than an entry shown. *)
Theorem shown_entries_are_most_urgent now inventory ewd lst :
  let r := analyzeInventory now inventory ewd lst in
  (∀ a b, a ∈ Js.slice0 10 (expired r) -> b ∈ drop 10 (expired r) ->
          ex_daysExpired b <= ex_daysExpired a) ∧
  (∀ a b, a ∈ Js.slice0 10 (nearExpiry r) -> b ∈ drop 10 (nearExpiry r) ->
          ne_daysUntilExpiry a <= ne_daysUntilExpiry b) ∧
  (∀ a b, a ∈ Js.slice0 10 (lowStock r) -> b ∈ drop 10 (lowStock r) ->
          ls_quantity a <= ls_quantity b).
Proof.
  cbn zeta. unfold analyzeInventory, Js.slice0. cbn [expired nearExpiry lowStock].
  split; [|split]; intros a b Ha Hb.
  - assert (Hab : keyLe (fun e => - ex_daysExpired e) a b).
    { eapply sorted_take_drop; [|exact Ha|exact Hb].
      apply sort_sorted. intros; lia. }
    unfold keyLe in Hab. lia.
  - eapply (sorted_take_drop (keyLe ne_daysUntilExpiry)); [|exact Ha|exact Hb].
    by apply sort_sorted.
  - eapply (sorted_take_drop (keyLe ls_quantity)); [|exact Ha|exact Hb].
    by apply sort_sorted.
Qed.

End ClassifierSettings.

Lemma classification_ignores_snapshot_order_witness :
  [item "Milk" 2 (DateAt noon); item "Rice" 1 DateAbsent]
    ≡ₚ [item "Rice" 1 DateAbsent; item "Milk" 2 (DateAt noon)] ∧
  map ls_quantity
    (lowStock (@analyzeInventory utc 0
       [item "Milk" 2 (DateAt noon); item "Rice" 1 DateAbsent] 7 5))
  = map ls_quantity
      (lowStock (@analyzeInventory utc 0
         [item "Rice" 1 DateAbsent; item "Milk" 2 (DateAt noon)] 7 5)).
Proof.
  split; [apply perm_swap|].
  apply (@classification_ignores_snapshot_order utc 0
           [item "Milk" 2 (DateAt noon); item "Rice" 1 DateAbsent]
           [item "Rice" 1 DateAbsent; item "Milk" 2 (DateAt noon)] 7 5).
  apply perm_swap.
Defined.

Lemma larger_settings_only_add_witness :
  7 <= 30 ∧ 5 <= 10 ∧
  lowStock (@analyzeInventory utc 0 [item "Milk" 8 (DateAt (20 * oneDayMs))] 7 5)
    ⊆+ lowStock (@analyzeInventory utc 0 [item "Milk" 8 (DateAt (20 * oneDayMs))] 30 10).
Proof.
  split; [lia|]. split; [lia|].
  apply (@larger_settings_only_add utc 0 [item "Milk" 8 (DateAt (20 * oneDayMs))]
           7 30 5 10); lia.
Defined.

(** ** Subscribers, deliveries and statistics *)

Lemma stamped_stamped ts ts' s : stamped ts (stamped ts' s) = stamped ts s.
Proof. reflexivity. Qed.

Section DispatchExtras.
Context `{Locale} {World : Type} `{Host World}.

Lemma deliver_descends message (st : Dispatch World) doc users0 :
  descends users0 (ds_users st) ->
  descends users0 (ds_users (deliver message st doc)).
Proof.
  intros Hinv. destruct doc as [id sub]. unfold deliver, refUpdate, refDelete.
  destruct (sendMessage (chatId sub) message (ds_world st)) as [[res|] w];
    [|done].
  destruct (success res); [|destruct (blocked res); [|done]];
    (destruct (writeRejects w); [done|]).
  - destruct (ds_users st !! id) as [cur|] eqn:Hcur; [|done].
    cbn [ds_users]. intros j s' Hj.
    destruct (decide (id = j)) as [->|Hne].
    + rewrite lookup_insert_eq in Hj. injection Hj as <-.
      destruct (Hinv j cur Hcur) as (s & Hs & [->|[ts' ->]]);
        exists s; split; try done; right; by eexists.
    + rewrite lookup_insert_ne in Hj by done. by apply Hinv.
  - cbn [ds_users]. intros j s' Hj.
    destruct (decide (id = j)) as [->|Hne].
    + by rewrite lookup_delete_eq in Hj.
    + rewrite lookup_delete_ne in Hj by done. by apply Hinv.
Qed.

Lemma sendToSubscribers_descends message docs (st : Dispatch World) users0 :
  descends users0 (ds_users st) ->
  descends users0 (ds_users (sendToSubscribers message docs st)).
Proof.
  revert st. induction docs as [|doc docs IH]; intros st Hinv; [done|].
  apply IH. by apply deliver_descends.
Qed.

Lemma processStoreAlerts_descends store (w : World) :
  descends (st_users store) (run_users (processStoreAlerts store w)).
Proof.
  assert (Hrefl : descends (st_users store) (st_users store)).
  { intros id s Hs. exists s. by split; [|left]. }
  unfold processStoreAlerts.
  destruct (st_usersGetFails store); [done|].
  destruct (length (map_to_list (st_users store)) =? 0)%nat; [done|].
  destruct (st_inventoryGetFails store); [done|].
  destruct (length (st_inventory store) =? 0)%nat; [done|].
  destruct (noAlerts _); [done|].
  cbn [run_users]. by apply sendToSubscribers_descends.
Qed.

(** Every entry of the log is for the document it was written for. *)
Lemma sendToSubscribers_log message docs (st : Dispatch World) :
  ∃ ds, ds_log (sendToSubscribers message docs st) = ds_log st ++ ds ∧
        Forall2 (fun d doc => dl_id d = fst doc ∧ dl_chatId d = chatId (snd doc))
                ds docs.
Proof.
  revert st. induction docs as [|[id sub] docs IH]; intros st.
  - exists []. cbn. by rewrite app_nil_r.
  - change (sendToSubscribers message ((id, sub) :: docs) st)
      with (sendToSubscribers message docs (deliver message st (id, sub))).
    destruct (IH (deliver message st (id, sub))) as (ds & Hlog & Hall).
    assert (Hstep : ∃ d, ds_log (deliver message st (id, sub)) = ds_log st ++ [d] ∧
                         dl_id d = id ∧ dl_chatId d = chatId sub).
    { unfold deliver.
      destruct (sendMessage (chatId sub) message (ds_world st)) as [[res|] w];
        [destruct (success res);
           [destruct (writeRejects w); [|destruct (refUpdate _ _ _)]
           |destruct (blocked res); [destruct (writeRejects w)|]]|];
        cbn [ds_log]; eexists; (split; [reflexivity|]); done. }
    destruct Hstep as (d & Hd & Hdid & Hchat).
    exists (d :: ds). split.
    + rewrite Hlog, Hd, <- app_assoc. done.
    + constructor; [done|done].
Qed.

Lemma deliveries_to_subscribers store (w : World) d :
  d ∈ run_deliveries (processStoreAlerts store w) ->
  ∃ s, st_users store !! dl_id d = Some s ∧ dl_chatId d = chatId s.
Proof.
  unfold processStoreAlerts.
  destruct (st_usersGetFails store); [by intros ?%elem_of_nil|].
  destruct (length (map_to_list (st_users store)) =? 0)%nat; [by intros ?%elem_of_nil|].
  destruct (st_inventoryGetFails store); [by intros ?%elem_of_nil|].
  destruct (length (st_inventory store) =? 0)%nat; [by intros ?%elem_of_nil|].
  destruct (noAlerts _); [by intros ?%elem_of_nil|].
  cbn [run_deliveries].
  match goal with
  | |- context [sendToSubscribers ?m ?docs ?st] =>
      destruct (sendToSubscribers_log m docs st) as (ds & Hlog & Hall)
  end.
  rewrite Hlog. cbn [ds_log app]. intros Hd.
  apply list_elem_of_lookup in Hd as [i Hi].
  destruct (Forall2_lookup_l _ _ _ _ _ Hall Hi) as ([id s] & Hdoc & Hid & Hchat).
  cbn in Hid, Hchat. exists s. split; [|done].
  rewrite Hid. apply elem_of_map_to_list. by eapply list_elem_of_lookup_2.
Qed.

Lemma update_is_accepted_send (d : Delivery) :
  effectAgrees d ->
  isUpdate d = true ↔ sentOk d = true ∧ isRejected d = false.
Proof.
  intros (rej & now & Heff). unfold ruledEffect, isUpdate, sentOk, isRejected in *.
  destruct (dl_outcome d) as [res|];
    [destruct (success res); [|destruct (blocked res)]; destruct rej|];
    rewrite Heff; split; try done; by intros [? ?].
Qed.

(** The records written are the ones of the successful sends whose
    update was not rejected. *)
Lemma updates_among_sends (ds : list Delivery) :
  Forall effectAgrees ds ->
  filter (fun d => isUpdate d = true) ds
    = filter (fun d => sentOk d = true ∧ isRejected d = false) ds ∧
  length (filter (fun d => sentOk d = true) ds)
    = (length (filter (fun d => isUpdate d = true) ds)
       + length (filter (fun d => sentOk d = true ∧ isRejected d = true) ds))%nat.
Proof.
  induction 1 as [|d ds Hd _ [IH1 IH2]]; [done|].
  apply update_is_accepted_send in Hd.
  rewrite !filter_cons, IH1.
  assert (Hbool : isRejected d = true ∨ isRejected d = false)
    by (destruct (isRejected d); auto).
  repeat case_decide; try (exfalso; intuition congruence);
    cbn [length]; (split; [done|]); rewrite <- ?IH1; lia.
Qed.

Lemma alerts_bounded store (w : World) :
  (alertsOf (processStoreAlerts store w)
   <= length (filter (fun d => sentOk d = true)
                (run_deliveries (processStoreAlerts store w))))%nat ∧
  (length (filter (fun d => sentOk d = true)
             (run_deliveries (processStoreAlerts store w)))
   <= size (st_users store))%nat.
Proof.
  unfold alertsOf.
  destruct (run_completion (processStoreAlerts store w)) as [n|] eqn:Hc.
  - pose proof (alerts_count_updates store w n Hc) as Hn.
    destruct (processStoreAlerts_cases store w)
      as [(_ & Hnone & _) | (m & n' & _ & _ & Hids & Hall & _)].
    + rewrite Hnone in *. cbn in *. subst n. split; lia.
    + destruct (updates_among_sends _ Hall) as [_ Hsum]. split; [lia|].
      etrans; [apply length_filter|].
      rewrite <- (length_map dl_id), Hids, length_fmap, length_map_to_list. done.
  - destruct (processStoreAlerts_cases store w)
      as [(_ & Hnone & _) | (m & n' & _ & Hret & _)]; [|congruence].
    rewrite Hnone. cbn. split; lia.
Qed.

(** X6. The number that [processStoreAlerts] returns is the number of
    records whose [lastAlertSent] it wrote: one for every send that
    returned success and whose update was not rejected, and each of these
    records holds the new time after the call. The number falls short of
    the sends that returned success by the rejected updates, and these
    sends are at most the subscribers of the store. *)
Theorem alerts_are_written_timestamps store (w : World) n :
  run_completion (processStoreAlerts store w) = Returns n ->
  let r := processStoreAlerts store w in
  n = length (filter (fun d => isUpdate d = true) (run_deliveries r)) ∧
  n = length (filter (fun d => sentOk d = true ∧ isRejected d = false)
                (run_deliveries r)) ∧
  length (filter (fun d => sentOk d = true) (run_deliveries r))
    = (n + length (filter (fun d => sentOk d = true ∧ isRejected d = true)
                     (run_deliveries r)))%nat ∧
  (length (filter (fun d => sentOk d = true) (run_deliveries r))
   <= size (st_users store))%nat ∧
  (∀ d, d ∈ run_deliveries r -> isUpdate d = true ->
        ∃ s ts, st_users store !! dl_id d = Some s ∧ dl_effect d = Updated ts ∧
                run_users r !! dl_id d = Some (stamped ts s)).
Proof.
  intros Hc. cbn zeta.
  pose proof (alerts_count_updates store w n Hc) as Hn.
  destruct (alerts_bounded store w) as [_ Hle].
  destruct (processStoreAlerts_cases store w)
    as [(_ & Hnone & _) | (m & n' & _ & _ & Hids & Hall & _ & _ & Hown)].
  - rewrite Hnone in *. cbn in Hn. subst n. repeat split; try done.
    intros d Hd. by apply elem_of_nil in Hd.
  - destruct (updates_among_sends _ Hall) as [Hsame Hsum].
    split; [done|]. split; [by rewrite <- Hsame|]. split; [by rewrite Hn|].
    split; [done|].
    intros d Hd Hupd.
    destruct (deliveries_to_subscribers store w d Hd) as (s & Hs & _).
    unfold isUpdate in Hupd. destruct (dl_effect d) as [ts| | |] eqn:Heff; try done.
    exists s, ts. repeat split; try done.
    rewrite (Hown d s Hd Hs). unfold effectOn. by rewrite Heff.
Qed.

(** X7. A call of [processStoreAlerts] never adds a subscriber and never
    changes the chat id or the user id of one: every record of the
    collection after the call is a record of the collection before it,
    either as it was or with a new [lastAlertSent] only. *)
Theorem subscribers_are_never_invented store (w : World) id s' :
  run_users (processStoreAlerts store w) !! id = Some s' ->
  ∃ s, st_users store !! id = Some s ∧
       chatId s' = chatId s ∧ telegramUserId s' = telegramUserId s ∧
       (s' = s ∨ ∃ ts, s' = stamped ts s).
Proof.
  intros Hs'. destruct (processStoreAlerts_descends store w id s' Hs')
    as (s & Hs & Hor).
  exists s. split; [done|].
  destruct Hor as [->|[ts ->]]; repeat split; eauto.
Qed.

(** X8. Messages go to subscribers only: every delivery of a call is for
    a record of the store's collection and goes to the chat id of that
    record, and no record has two deliveries in one call. *)
Theorem deliveries_go_to_subscribers_once store (w : World) :
  let r := processStoreAlerts store w in
  (∀ d, d ∈ run_deliveries r ->
        ∃ s, st_users store !! dl_id d = Some s ∧ dl_chatId d = chatId s) ∧
  NoDup (map dl_id (run_deliveries r)).
Proof.
  cbn zeta. split; [intros d; apply deliveries_to_subscribers|].
  destruct (processStoreAlerts_cases store w)
    as [(_ & Hnone & _) | (m & n & _ & _ & Hids & _)].
  - rewrite Hnone. constructor.
  - rewrite Hids. apply NoDup_fst_map_to_list.
Qed.

(** X9. A subscriber whose record a call has deleted gets no delivery in
    any later call on the collection that the first call left. *)
Theorem removed_subscriber_is_left_alone store (w w' : World) id :
  run_users (processStoreAlerts store w) !! id = None ->
  ∀ d, d ∈ run_deliveries
             (processStoreAlerts
                (withUsers (run_users (processStoreAlerts store w)) store) w') ->
       dl_id d ≠ id.
Proof.
  intros Hgone d Hd Hid.
  apply deliveries_to_subscribers in Hd as (s & Hs & _).
  cbn [withUsers st_users] in Hs. rewrite Hid in Hs. congruence.
Qed.

End DispatchExtras.

Section RunExtras.
Context `{Locale} {World : Type} `{Host World}.

Lemma tally_bounds (rs : list (StoreSnapshot * StoreRun World)) :
  Forall (fun p => ∃ w', snd p = processStoreAlerts (fst p) w') rs ->
  (successCount (tally rs) + failureCount (tally rs) <= length rs)%nat ∧
  (successCount (tally rs) <= totalAlertsSent (tally rs))%nat ∧
  (totalAlertsSent (tally rs)
   <= sum_list (map (fun s => size (st_users s)) (map fst rs)))%nat.
Proof.
  induction 1 as [|[store r] rs [w' Hr] _ IH]; [cbn; lia|].
  cbn [fst snd] in Hr. subst r.
  assert (Hle : (alertsOf (processStoreAlerts store w') <= size (st_users store))%nat).
  { destruct (alerts_bounded store w'). lia. }
  unfold tally in *. cbn [totalAlertsSent successCount failureCount] in *.
  rewrite !filter_cons. cbn [map fst snd].
  repeat match goal with
         | |- context [sum_list (?x :: ?l)] =>
             change (sum_list (x :: l)) with (x + sum_list l)%nat
         end.
  unfold alertsOf in *.
  destruct (run_completion (processStoreAlerts store w')) as [n|];
    cbn beta iota in Hle |- *; repeat case_decide; cbn [length];
    try discriminate; lia.
Qed.

(** X10. The statistics of a run are consistent: stores with alerts and
    failed stores together are at most the stores of the list, every store
    with alerts adds at least one alert to the total, and the total is at
    most the number of subscribers of all stores. *)
Theorem run_statistics_are_consistent db (w : World) st :
  dailyTelegramAlerts db w = JobReturns st ->
  length (rs_runs st) = length (db_stores db) ∧
  (successCount (rs_stats st) + failureCount (rs_stats st)
   <= length (db_stores db))%nat ∧
  (successCount (rs_stats st) <= totalAlertsSent (rs_stats st))%nat ∧
  (totalAlertsSent (rs_stats st)
   <= sum_list (map (fun s => size (st_users s)) (db_stores db)))%nat.
Proof.
  unfold dailyTelegramAlerts. destruct (db_storesGetFails db); [done|].
  intros [= <-].
  match goal with
  | |- context [fold_left processStore ?ss ?s0] =>
      destruct (storeLoop_spec ss s0)
        as (rs & Hruns & Hmap & Hall & Htot & Hsucc & Hfail)
  end.
  cbn zeta in *.
  cbn [rs_runs rs_stats app totalAlertsSent successCount failureCount] in *.
  destruct (tally_bounds rs Hall) as (Hb1 & Hb2 & Hb3).
  rewrite Hruns, Htot, Hsucc, Hfail, <- Hmap.
  rewrite length_map in *. repeat split; lia.
Qed.

(** X11. The settings document and the fate of its read reach a call of
    [processStoreAlerts] through the two resolved thresholds only: two
    stores that differ in nothing but these and resolve to the same
    thresholds give the same call. In particular a rejected read does not
    fail the store: the call is the one for a store without a settings
    document, with thresholds 5 and 7. *)
Theorem settings_reach_through_thresholds store (w : World)
    fails1 doc1 fails2 doc2 :
  lowStockThreshold (getStoreSettings (withConfigRead fails1 doc1 store))
    = lowStockThreshold (getStoreSettings (withConfigRead fails2 doc2 store)) ->
  expiryWarningDays (getStoreSettings (withConfigRead fails1 doc1 store))
    = expiryWarningDays (getStoreSettings (withConfigRead fails2 doc2 store)) ->
  processStoreAlerts (withConfigRead fails1 doc1 store) w
    = processStoreAlerts (withConfigRead fails2 doc2 store) w ∧
  processStoreAlerts (withConfigRead true doc1 store) w
    = processStoreAlerts (withConfigRead false None store) w ∧
  lowStockThreshold (getStoreSettings (withConfigRead true doc1 store)) = 5 ∧
  expiryWarningDays (getStoreSettings (withConfigRead true doc1 store)) = 7.
Proof.
  intros Hlow Hdays. split; [|repeat split; reflexivity].
  unfold processStoreAlerts.
  cbn [withConfigRead st_id st_name st_users st_inventory st_usersGetFails
       st_inventoryGetFails].
  by rewrite Hlow, Hdays.
Qed.

End RunExtras.

Lemma alerts_are_written_timestamps_witness :
  run_completion (@processStoreAlerts utc _ demoHost demoShop demoStart) = Returns 2 ∧
  2%nat = length (filter (fun d => isUpdate d = true)
                    (run_deliveries (@processStoreAlerts utc _ demoHost demoShop demoStart))).
Proof.
  split; [reflexivity|].
  apply (@alerts_are_written_timestamps utc _ demoHost demoShop demoStart 2).
  reflexivity.
Defined.

Lemma subscribers_are_never_invented_witness :
  run_users (@processStoreAlerts utc _ demoHost demoShop demoStart) !! "u1"
    = Some (stamped 103 (subscriber 1)) ∧
  ∃ s, st_users demoShop !! "u1" = Some s ∧
       chatId (stamped 103 (subscriber 1)) = chatId s.
Proof.
  split; [reflexivity|].
  destruct (@subscribers_are_never_invented utc _ demoHost demoShop demoStart
              "u1" (stamped 103 (subscriber 1)) eq_refl) as (s & Hs & Hc & _).
  exists s. split; [exact Hs | exact Hc].
Defined.

Lemma removed_subscriber_is_left_alone_witness :
  run_users (@processStoreAlerts utc _ demoHost demoShop demoStart) !! "u2" = None ∧
  ∀ d, d ∈ run_deliveries
             (@processStoreAlerts utc _ demoHost
                (withUsers (run_users (@processStoreAlerts utc _ demoHost demoShop demoStart))
                   demoShop) demoStart) ->
       dl_id d ≠ "u2".
Proof.
  split; [reflexivity|].
  apply (@removed_subscriber_is_left_alone utc _ demoHost demoShop demoStart
           demoStart "u2").
  reflexivity.
Defined.

Lemma run_statistics_are_consistent_witness :
  @dailyTelegramAlerts utc _ demoHost demoDb demoStart = JobReturns demoRun ∧
  (successCount (rs_stats demoRun) + failureCount (rs_stats demoRun)
   <= length (db_stores demoDb))%nat.
Proof.
  split; [reflexivity|].
  apply (@run_statistics_are_consistent utc _ demoHost demoDb demoStart demoRun).
  reflexivity.
Defined.

Lemma settings_reach_through_thresholds_witness :
  lowStockThreshold (getStoreSettings (withConfigRead true None demoShop))
    = lowStockThreshold (getStoreSettings (withConfigRead false (Some emptyConfig) demoShop)) ∧
  expiryWarningDays (getStoreSettings (withConfigRead true None demoShop))
    = expiryWarningDays (getStoreSettings (withConfigRead false (Some emptyConfig) demoShop)) ∧
  @processStoreAlerts utc _ demoHost (withConfigRead true None demoShop) demoStart
    = @processStoreAlerts utc _ demoHost
        (withConfigRead false (Some emptyConfig) demoShop) demoStart.
Proof.
  split; [reflexivity|]. split; [reflexivity|].
  apply (@settings_reach_through_thresholds utc _ demoHost demoShop demoStart
           true None false (Some emptyConfig)); reflexivity.
Defined.

(** ** The test alert endpoint *)

Lemma prefix_app (p s : string) :
  String.prefix p s = true -> ∃ b, s = p +:+ b.
Proof.
  revert s. induction p as [|c p IH]; intros s Hp.
  - by exists s.
  - destruct s as [|c' s]; [done|]. cbn in Hp.
    destruct (Ascii.ascii_dec c c') as [->|]; [|done].
    destruct (IH s Hp) as [b ->]. by exists b.
Qed.

Lemma prefix_of_app (p b : string) : String.prefix p (p +:+ b) = true.
Proof.
  induction p as [|c p IH]; [by destruct b|].
  change (String.prefix (String c p) (String c (p +:+ b)) = true).
  cbn. by destruct (Ascii.ascii_dec c c).
Qed.

Lemma drop_app (p b : string) : JsString.drop (String.length p) (p +:+ b) = b.
Proof. induction p as [|c p IH]; [by destruct b|]. exact IH. Qed.

Lemma cut_at_separator (sep rest : string) :
  sep ≠ EmptyString ->
  JsString.cut sep (sep +:+ rest) = (EmptyString, Some rest).
Proof.
  intros Hsep. destruct sep as [|c sep]; [done|].
  change (String c sep +:+ rest) with (String c (sep +:+ rest)).
  unfold JsString.cut; fold JsString.cut.
  change (String c (sep +:+ rest)) with (String c sep +:+ rest).
  by rewrite prefix_of_app, drop_app.
Qed.

Lemma cut_without_separator (sep t : string) :
  (∀ a b, t ≠ a +:+ sep +:+ b) ->
  JsString.cut sep t = (t, None).
Proof.
  induction t as [|c t IH]; intros Hfree; [done|].
  unfold JsString.cut; fold JsString.cut.
  destruct (String.prefix sep (String c t)) eqn:Hp.
  - apply prefix_app in Hp as [b Hb]. by destruct (Hfree EmptyString b).
  - rewrite IH; [done|]. intros a b ->. by apply (Hfree (String c a) b).
Qed.

Lemma occursIn_false (sep t : string) :
  JsString.occursIn sep t = false -> ∀ a b, t ≠ a +:+ sep +:+ b.
Proof.
  intros Hocc a. revert t Hocc. induction a as [|c a IH]; intros t Hocc b ->.
  - change (EmptyString +:+ sep +:+ b) with (sep +:+ b) in Hocc.
    pose proof (prefix_of_app sep b) as Hp.
    destruct (sep +:+ b) as [|c s].
    + change (String.prefix sep EmptyString = false) in Hocc. congruence.
    + change (String.prefix sep (String c s) || JsString.occursIn sep s = false)
        in Hocc.
      apply orb_false_iff in Hocc as [Hocc _]. congruence.
  - change (String.prefix sep (String c (a +:+ sep +:+ b))
            || JsString.occursIn sep (a +:+ sep +:+ b) = false) in Hocc.
    apply orb_false_iff in Hocc as [_ Hocc].
    by apply (IH _ Hocc b).
Qed.

Lemma bearer_token_cut (t : string) :
  JsString.splitAt1 "Bearer " ("Bearer " +:+ t)
  = Some (fst (JsString.cut "Bearer " t)).
Proof. unfold JsString.splitAt1. by rewrite cut_at_separator. Qed.

(** X12. For an authorization header [Bearer <rest>] whose rest holds no
    further [Bearer ], the header passes the check of the handler and the
    id token handed to the identity service is the rest, whole and
    unchanged. *)
Theorem bearer_token_is_the_rest (t : string) :
  JsString.occursIn "Bearer " t = false ->
  JsString.startsWith "Bearer " ("Bearer " +:+ t) = true ∧
  JsString.splitAt1 "Bearer " ("Bearer " +:+ t) = Some t.
Proof.
  intros Hocc. split; [apply prefix_of_app|].
  rewrite bearer_token_cut, cut_without_separator; [done|].
  by apply occursIn_false.
Qed.

(** A second [Bearer ] in the header ends the token. *)
Example bearer_token_cut_short :
  JsString.splitAt1 "Bearer " "Bearer abc Bearer def" = Some "abc ".
Proof. reflexivity. Qed.

Lemma bearer_token_is_the_rest_witness :
  JsString.occursIn "Bearer " "tok-shop" = false ∧
  JsString.splitAt1 "Bearer " ("Bearer " +:+ "tok-shop") = Some "tok-shop".
Proof.
  split; [reflexivity|].
  apply (bearer_token_is_the_rest "tok-shop"). reflexivity.
Defined.

Section TestEndpointFacts.
Context {World : Type} `{Host World} `{TestHost World}.

Lemma testLoop_spec docs (st : TestLoop World) :
  ∃ tries,
    tl_log (fold_left testOne docs st) = tl_log st ++ tries ∧
    Forall2 (fun a doc => ta_id a = fst doc ∧ ta_chatId a = chatId (snd doc))
            tries docs ∧
    tl_sentCount (fold_left testOne docs st)
    = (tl_sentCount st + length (filter (fun a => attemptOk a = true) tries))%nat.
Proof.
  revert st. induction docs as [|[id sub] docs IH]; intros st.
  - exists []. cbn. rewrite app_nil_r. repeat split; [constructor|lia].
  - cbn [fold_left].
    destruct (IH (testOne st (id, sub))) as (tries & Hlog & Hall & Hcount).
    assert (Hstep : ∃ a, tl_log (testOne st (id, sub)) = tl_log st ++ [a] ∧
                         ta_id a = id ∧ ta_chatId a = chatId sub ∧
                         tl_sentCount (testOne st (id, sub))
                         = (tl_sentCount st + (if attemptOk a then 1 else 0))%nat).
    { unfold testOne, attemptOk.
      destruct (sendTestAlert (chatId sub) (tl_world st)) as [[res|] w];
        [destruct (success res) eqn:Hs|];
        cbn [tl_log tl_sentCount]; eexists; (split; [reflexivity|]);
        cbn [ta_id ta_chatId ta_outcome]; rewrite ?Hs; repeat split; lia. }
    destruct Hstep as (a & Ha & Hid & Hchat & Hsent).
    exists (a :: tries). split; [|split].
    + rewrite Hlog, Ha, <- app_assoc. done.
    + by constructor.
    + rewrite Hcount, Hsent, filter_cons.
      destruct (attemptOk a); case_decide; try done; cbn [length]; lia.
Qed.

(** X13. The endpoint contacts subscribers, or tells whether a store has
    any, only for its owner: test sends, the answer 200 and the answer 404
    all require a POST request with a store id and an authorization header
    [Bearer <token>] whose token the identity service decodes to a uid
    equal to that store id. *)
Theorem test_alerts_need_the_owner db req (w : World) :
  let r := sendTestTelegramAlert db req w in
  tr_attempts r ≠ [] ∨ res_status (tr_response r) = 200
    ∨ res_status (tr_response r) = 404 ->
  rq_method req = "POST" ∧
  ∃ storeId header token,
    rq_storeId req = Some storeId ∧
    rq_authorization req = Some header ∧
    JsString.startsWith "Bearer " header = true ∧
    JsString.splitAt1 "Bearer " header = Some token ∧
    fst (verifyIdToken token w) = Some storeId.
Proof.
  cbn zeta. unfold sendTestTelegramAlert.
  destruct (String.eqb (rq_method req) "OPTIONS");
    [cbn; intros [?|[?|?]]; done|].
  destruct (String.eqb (rq_method req) "POST") eqn:Hpost;
    [|cbn; intros [?|[?|?]]; done].
  apply String.eqb_eq in Hpost. cbn [negb].
  destruct (rq_storeId req) as [[|c sid]|] eqn:Hsid;
    cbn [JsString.truthy]; try (cbn; intros [?|[?|?]]; done).
  destruct (rq_authorization req) as [[|c' hdr]|] eqn:Hhdr;
    cbn [JsString.truthy]; try (cbn; intros [?|[?|?]]; done).
  destruct (JsString.startsWith "Bearer " (String c' hdr)) eqn:Hstart;
    [|cbn; intros [?|[?|?]]; done].
  cbn [negb].
  destruct (JsString.splitAt1 "Bearer " (String c' hdr)) as [token|] eqn:Htoken;
    [|cbn; intros [?|[?|?]]; done].
  destruct (verifyIdToken token w) as [[uid|] w1] eqn:Hverify;
    [|cbn; intros [?|[?|?]]; done].
  destruct (String.eqb uid (String c sid)) eqn:Huid;
    [|cbn; intros [?|[?|?]]; done].
  apply String.eqb_eq in Huid. subst uid.
  intros _. split; [done|].
  exists (String c sid), (String c' hdr), token.
  rewrite Hverify. done.
Qed.

(** X14. When the endpoint answers 200, it has tried every subscriber of
    the store once, at the chat id of the record, whatever the earlier
    tries gave; the count of the answer is the number of tries that
    returned success and is at most the number of subscribers. Any other
    answer comes without a try. *)
Theorem test_alerts_reach_every_subscriber db req (w : World) :
  let r := sendTestTelegramAlert db req w in
  (res_status (tr_response r) = 200 ->
   ∃ storeId store,
     rq_storeId req = Some storeId ∧
     storeById db storeId = Some store ∧
     Forall2 (fun a doc => ta_id a = fst doc ∧ ta_chatId a = chatId (snd doc))
             (tr_attempts r) (map_to_list (st_users store)) ∧
     res_body (tr_response r)
     = JsonSuccess ("Test alert sent to "
                      +:+ Js.show (Z.of_nat (length (filter (fun a => attemptOk a = true)
                                                        (tr_attempts r))))
                      +:+ " subscriber(s)") ∧
     (length (filter (fun a => attemptOk a = true) (tr_attempts r))
      <= size (st_users store))%nat) ∧
  (res_status (tr_response r) ≠ 200 -> tr_attempts r = []).
Proof.
  cbn zeta. unfold sendTestTelegramAlert.
  destruct (String.eqb (rq_method req) "OPTIONS"); [by cbn|].
  destruct (String.eqb (rq_method req) "POST"); [|by cbn].
  cbn [negb].
  destruct (rq_storeId req) as [[|c sid]|] eqn:Hsid;
    cbn [JsString.truthy]; try by cbn.
  destruct (rq_authorization req) as [[|c' hdr]|] eqn:Hhdr;
    cbn [JsString.truthy]; try by cbn.
  destruct (JsString.startsWith "Bearer " (String c' hdr)); [|by cbn].
  cbn [negb].
  destruct (JsString.splitAt1 "Bearer " (String c' hdr)) as [token|]; [|by cbn].
  destruct (verifyIdToken token w) as [[uid|] w1]; [|by cbn].
  destruct (String.eqb uid (String c sid)); [|by cbn].
  cbn [negb].
  destruct (storeById db (String c sid)) as [store|] eqn:Hstore; [|by cbn].
  destruct (st_usersGetFails store); [by cbn|].
  destruct (map_to_list (st_users store)) as [|doc docs] eqn:Hdocs; [by cbn|].
  cbn [tr_response tr_attempts res_status res_body].
  split; [intros _|done].
  destruct (testLoop_spec (doc :: docs)
              {| tl_world := settle w1; tl_sentCount := 0; tl_log := [] |})
    as (tries & Hlog & Hall & Hcount).
  cbn [tl_log tl_sentCount app] in Hlog, Hcount.
  rewrite Nat.add_0_l in Hcount.
  exists (String c sid), store. rewrite Hlog, Hcount.
  split; [done|]. split; [done|]. split; [by rewrite Hdocs|]. split; [done|].
  etrans; [apply length_filter|].
  rewrite (Forall2_length _ _ _ Hall), <- Hdocs, length_map_to_list. done.
Qed.

End TestEndpointFacts.

Lemma test_alerts_need_the_owner_witness :
  res_status (tr_response
    (@sendTestTelegramAlert _ demoHost demoTestHost demoDb demoRequest demoStart)) = 200 ∧
  rq_method demoRequest = "POST".
Proof.
  split; [reflexivity|].
  apply (@test_alerts_need_the_owner _ demoHost demoTestHost demoDb demoRequest demoStart).
  right. left. reflexivity.
Defined.

Lemma test_alerts_reach_every_subscriber_witness :
  res_status (tr_response
    (@sendTestTelegramAlert _ demoHost demoTestHost demoDb demoRequest demoStart)) = 200 ∧
  ∃ storeId store,
    rq_storeId demoRequest = Some storeId ∧ storeById demoDb storeId = Some store.
Proof.
  split; [reflexivity|].
  destruct (@test_alerts_reach_every_subscriber _ demoHost demoTestHost demoDb
              demoRequest demoStart) as [Hok _].
  destruct (Hok eq_refl) as (storeId & store & Hid & Hstore & _).
  exists storeId, store. split; [exact Hid | exact Hstore].
Defined.

(** ** When a digest is composed, and what it says *)

Section DigestExtras.
Context `{Locale} {World : Type} `{Host World}.



End DigestExtras.

Section WordingExtras.
Context `{Locale}.

(** X16. The digest never counts zero or negative days: for the entries
    of a classification, an expired line reads [Expired today] exactly for
    zero days and otherwise [Expired N day ago] with [N = 1] or
    [Expired N days ago] with [N >= 2]; a near-expiry entry has at least
    one day, with the plural from two days on and the most urgent mark
    for one day only. *)
Theorem digest_counts_whole_days now inventory ewd lst :
  let r := analyzeInventory now inventory ewd lst in
  Forall (fun e =>
            (ex_daysExpired e = 0 ∧ expiredText e = "Expired today") ∨
            (ex_daysExpired e = 1 ∧ expiredText e = "Expired 1 day ago") ∨
            (2 <= ex_daysExpired e ∧
             expiredText e
             = "Expired " +:+ Js.show (ex_daysExpired e) +:+ " days ago"))
         (expired r) ∧
  Forall (fun e =>
            (ne_daysUntilExpiry e = 1 ∧ nearEmoji e = "🔴" ∧
             plural (ne_daysUntilExpiry e) = EmptyString) ∨
            (2 <= ne_daysUntilExpiry e <= 3 ∧ nearEmoji e = "🟠" ∧
             plural (ne_daysUntilExpiry e) = "s") ∨
            (4 <= ne_daysUntilExpiry e ∧ nearEmoji e = "🟡" ∧
             plural (ne_daysUntilExpiry e) = "s"))
         (nearExpiry r).
Proof.
  cbn zeta. unfold analyzeInventory. cbn [expired nearExpiry].
  rewrite classifyAll_spec. cbn [expired nearExpiry].
  split; rewrite sort_perm; apply Forall_forall; intros e He;
    apply list_elem_of_omap in He as (i & _ & Hsel).
  - unfold specExpired in Hsel.
    destruct (item_expiryDate i); try done. case_decide; [|done].
    injection Hsel as <-. unfold expiredText, plural. cbn [ex_daysExpired].
    set (d := Z.abs _). assert (0 <= d) by (unfold d; lia).
    destruct (Z.eqb_spec d 0) as [->|]; [by left|].
    destruct (Z.ltb_spec 1 d); [right; right; split; [lia|reflexivity]|].
    right; left. assert (d = 1) as -> by lia. by split.
  - unfold specNearExpiry in Hsel.
    destruct (item_expiryDate i); try done. case_decide; [|done].
    injection Hsel as <-. unfold nearEmoji, plural. cbn [ne_daysUntilExpiry].
    set (d := wholeDays _ _) in *.
    destruct (Z.eqb_spec d 1) as [->|]; [by left|].
    destruct (Z.leb_spec d 3); destruct (Z.ltb_spec 1 d); try lia.
    + right; left. repeat split; lia.
    + right; right. repeat split; lia.
Qed.

End WordingExtras.

Section FailureExtras.
Context `{Locale} {World : Type} `{Host World}.

(** X17. A store that the run counts as failed got nothing: its call
    composed no digest, made no delivery and left every subscriber record
    as it was. *)
Theorem failed_store_got_nothing db (w : World) st store r :
  dailyTelegramAlerts db w = JobReturns st ->
  (store, r) ∈ rs_runs st ->
  run_completion r = Throws ->
  run_message r = None ∧ run_deliveries r = [] ∧ run_users r = st_users store.
Proof.
  unfold dailyTelegramAlerts. destruct (db_storesGetFails db); [done|].
  intros [= <-] Hmem Hthrows.
  match goal with
  | _ : context [fold_left processStore ?ss ?s0] |- _ =>
      destruct (storeLoop_spec ss s0) as (rs & Hruns & _ & Hall & _)
  end.
  cbn zeta in Hruns. rewrite Hruns in Hmem. cbn [rs_runs app] in Hmem.
  rewrite Forall_forall in Hall.
  destruct (Hall _ Hmem) as [w' Hr]. cbn [fst snd] in Hr. subst r.
  destruct (processStoreAlerts_cases store w')
    as [(Hnone & Hds & Husers & _) | (m & n & _ & Hret & _)]; [done|congruence].
Qed.

End FailureExtras.

Lemma failed_store_got_nothing_witness :
  @dailyTelegramAlerts utc _ demoHost demoDb demoStart = JobReturns demoRun ∧
  (brokenStore "broken" demoUsers,
   @processStoreAlerts utc _ demoHost (brokenStore "broken" demoUsers) (0%nat, 1))
    ∈ rs_runs demoRun ∧
  run_deliveries
    (@processStoreAlerts utc _ demoHost (brokenStore "broken" demoUsers) (0%nat, 1)) = [].
Proof.
  assert (Hmem : (brokenStore "broken" demoUsers,
                  @processStoreAlerts utc _ demoHost (brokenStore "broken" demoUsers)
                    (0%nat, 1)) ∈ rs_runs demoRun).
  { vm_compute. left. }
  split; [reflexivity|]. split; [exact Hmem|].
  apply (@failed_store_got_nothing utc _ demoHost demoDb demoStart demoRun
           _ _ eq_refl Hmem eq_refl).
Defined.

(** ** Pauses between sends and between stores *)

Section PacingExtras.
Context `{Locale}.
Variable gateway : Z -> string -> list Event -> SendOutcome.
Variable rejects : list Event -> bool.
Variable time : list Event -> Z.

Lemma worldAfter_trace message (d : Delivery) (w : list Event) :
  @worldAfter _ (traceHost gateway rejects time) d (w ++ [EvSend (dl_chatId d) message])
  = w ++ pacing message d.
Proof.
  unfold worldAfter, pacing. cbn [sleep settle traceHost].
  destruct (dl_effect d); [| | |destruct (dl_outcome d)];
    rewrite <- ?app_assoc; reflexivity.
Qed.

(** On the recording host, the deliveries of a replay determine the trace,
    and the trace determines every outcome and every effect. *)
Lemma replays_trace message (start : list Event) ds w' :
  @Replays _ (traceHost gateway rejects time) message start ds w' ->
  w' = start ++ flat_map (pacing message) ds ∧
  (∀ k d, ds !! k = Some d ->
     dl_outcome d = gateway (dl_chatId d) message (traceBefore message start ds k) ∧
     dl_effect d = ruledEffect (rejects (traceAtSend message start ds k d))
                     (time (traceAtSend message start ds k d)) (dl_outcome d)).
Proof.
  induction 1 as [w|w w1 d ds w' Hsend Heff _ [IHw IHd]].
  - split; [by rewrite app_nil_r|]. intros k d Hk. by rewrite lookup_nil in Hk.
  - cbn [sendMessage traceHost] in Hsend. injection Hsend as Hout <-.
    rewrite worldAfter_trace in IHw, IHd.
    split; [by rewrite IHw, <- app_assoc|].
    intros [|k] d' Hk.
    + injection Hk as <-. unfold traceAtSend, traceBefore.
      cbn [take flat_map]. rewrite app_nil_r. by split.
    + cbn [lookup list_lookup] in Hk. destruct (IHd k d' Hk) as [Ho He].
      unfold traceAtSend, traceBefore in *. cbn [take flat_map].
      by rewrite app_assoc.
Qed.

Lemma processStoreAlerts_trace store (w : list Event) :
  let r := @processStoreAlerts _ _ (traceHost gateway rejects time) store w in
  ∃ reads message,
    Forall (fun e => e = EvSettle) reads ∧
    (run_message r = Some message ∨ run_deliveries r = []) ∧
    @Replays _ (traceHost gateway rejects time) message (w ++ reads)
      (run_deliveries r) (run_world r).
Proof.
  cbn zeta.
  destruct (@processStoreAlerts_cases _ _ (traceHost gateway rejects time) store w)
    as [(_ & Hnone & _ & Hworld & _) | (m & n & Hm & _ & _ & _ & Hreplay & _)].
  - rewrite Hnone. cbn [settle traceHost] in Hworld.
    apply elem_of_cons in Hworld as [->|Hworld];
      [|apply elem_of_cons in Hworld as [->|Hworld]; [|by apply elem_of_nil in Hworld]].
    + exists [EvSettle], EmptyString. repeat split; [by repeat constructor|by right|constructor].
    + exists [EvSettle; EvSettle; EvSettle], EmptyString. rewrite <- !app_assoc.
      repeat split; [by repeat constructor|by right|constructor].
  - exists [EvSettle; EvSettle; EvSettle], m. cbn [settle traceHost] in Hreplay.
    rewrite <- !app_assoc in Hreplay.
    repeat split; [by repeat constructor|by left|done].
Qed.

(** X18. Seen from the outside, a call of [processStoreAlerts] first
    waits for its reads and then, delivery by delivery in the order of the
    log, sends the digest (the same text every time) to the chat id of the
    delivery. The outcome of a delivery is the answer of the gateway to
    that send, and its effect is the one the rule gives for this answer,
    for the fate of the write and for the reading of the clock when the
    send has returned. A send that returns is followed by the write it
    calls for (none after a plain failure) and, unless that write is
    rejected, by one pause of 100 ms before the next send; a send that
    throws, or whose write is rejected, is followed by no pause. Nothing
    else is asked of the gateway. *)
Theorem sends_are_paced store (w : list Event) :
  let r := @processStoreAlerts _ _ (traceHost gateway rejects time) store w in
  ∃ reads message,
    Forall (fun e => e = EvSettle) reads ∧
    run_world r = w ++ reads ++ flat_map (pacing message) (run_deliveries r) ∧
    (run_message r = Some message ∨ run_deliveries r = []) ∧
    (∀ k d, run_deliveries r !! k = Some d ->
       dl_outcome d
         = gateway (dl_chatId d) message
             (traceBefore message (w ++ reads) (run_deliveries r) k) ∧
       dl_effect d
         = ruledEffect
             (rejects (traceAtSend message (w ++ reads) (run_deliveries r) k d))
             (time (traceAtSend message (w ++ reads) (run_deliveries r) k d))
             (dl_outcome d) ∧
       pauses 100 (pacing message d)
         = (if returned d && negb (isRejected d) then 1 else 0)%nat).
Proof.
  cbn zeta. destruct (processStoreAlerts_trace store w)
    as (reads & message & Hreads & Hmsg & Hreplay).
  apply replays_trace in Hreplay as [Hworld Hds].
  exists reads, message. split; [done|]. split; [by rewrite Hworld, app_assoc|].
  split; [done|]. intros k d Hk. destruct (Hds k d Hk) as [Hout Heff].
  split; [done|]. split; [done|].
  unfold pacing, pauses, returned, isRejected. rewrite Heff. unfold ruledEffect.
  destruct (dl_outcome d) as [res|]; [|done].
  destruct (success res); [|destruct (blocked res)];
    try destruct (rejects _); done.
Qed.

Lemma pauses_app ms (a b : list Event) :
  pauses ms (a ++ b) = (pauses ms a + pauses ms b)%nat.
Proof. unfold pauses. by rewrite filter_app, length_app. Qed.

Lemma pauses_sleep ms : pauses ms [EvSleep ms] = 1%nat.
Proof. unfold pauses. by rewrite filter_cons_True, filter_nil. Qed.

Lemma pauses_pacing message (ds : list Delivery) :
  pauses 1000 (flat_map (pacing message) ds) = 0%nat.
Proof.
  induction ds as [|d ds IH]; [done|].
  cbn [flat_map]. rewrite pauses_app, IH. unfold pacing, pauses.
  by destruct (dl_effect d); [| | |destruct (dl_outcome d)].
Qed.

Lemma pauses_settles ms (reads : list Event) :
  Forall (fun e => e = EvSettle) reads -> pauses ms reads = 0%nat.
Proof.
  unfold pauses. induction 1 as [|e reads -> _ IH]; [done|].
  by rewrite filter_cons_False.
Qed.

Lemma processStoreAlerts_pauses store (w : list Event) :
  pauses 1000 (run_world (@processStoreAlerts _ _ (traceHost gateway rejects time) store w))
  = pauses 1000 w.
Proof.
  destruct (processStoreAlerts_trace store w) as (reads & message & Hreads & _ & Hreplay).
  apply replays_trace in Hreplay as [-> _].
  by rewrite !pauses_app, pauses_pacing, (pauses_settles _ _ Hreads), !Nat.add_0_r.
Qed.

Lemma storeLoop_pauses stores (st0 : RunState (list Event)) :
  (pauses 1000 (rs_world (fold_left (@processStore _ _ (traceHost gateway rejects time)) stores st0))
   + length (filter (fun p => run_completion (snd p) ≠ Throws) (rs_runs st0)))%nat
  = (pauses 1000 (rs_world st0)
     + length (filter (fun p => run_completion (snd p) ≠ Throws)
                 (rs_runs (fold_left (@processStore _ _ (traceHost gateway rejects time)) stores st0))))%nat.
Proof.
  revert st0. induction stores as [|store stores IH]; intros st0; [done|].
  specialize (IH (@processStore _ _ (traceHost gateway rejects time) st0 store)).
  assert (Hstep :
    (pauses 1000 (rs_world (@processStore _ _ (traceHost gateway rejects time) st0 store))
     + length (filter (fun p => run_completion (snd p) ≠ Throws) (rs_runs st0)))%nat
    = (pauses 1000 (rs_world st0)
       + length (filter (fun p => run_completion (snd p) ≠ Throws)
                   (rs_runs (@processStore _ _ (traceHost gateway rejects time) st0 store))))%nat).
  { pose proof (processStoreAlerts_pauses store (rs_world st0)) as Hp.
    unfold processStore.
    destruct (run_completion
                (@processStoreAlerts _ _ (traceHost gateway rejects time) store (rs_world st0)))
      as [n|] eqn:Hc; cbn [rs_world rs_runs sleep traceHost];
      rewrite filter_app, length_app, filter_cons, filter_nil; cbn [snd];
      rewrite ?pauses_app, ?pauses_sleep, Hc, Hp; case_decide; try done;
      cbn [length]; lia. }
  cbn [fold_left]. lia.
Qed.

(** X19. The run pauses 1000 ms after every store whose call returns and
    not after a store whose call throws: the pauses of that length made
    during a run are as many as the stores whose calls returned. *)
Theorem stores_are_paced db (w : list Event) st :
  @dailyTelegramAlerts _ _ (traceHost gateway rejects time) db w = JobReturns st ->
  pauses 1000 (rs_world st)
  = (pauses 1000 w
     + length (filter (fun p => run_completion (snd p) ≠ Throws) (rs_runs st)))%nat.
Proof.
  unfold dailyTelegramAlerts. destruct (db_storesGetFails db); [done|].
  intros [= <-].
  match goal with
  | |- context [fold_left processStore ?ss ?s0] =>
      pose proof (storeLoop_pauses ss s0) as Hloop
  end.
  cbn [rs_world rs_runs settle traceHost] in Hloop.
  rewrite pauses_app in Hloop.
  rewrite (pauses_settles 1000 [EvSettle]) in Hloop by (by repeat constructor).
  change (filter _ []) with (@nil (StoreSnapshot * StoreRun (list Event))) in Hloop.
  cbn [length] in Hloop. lia.
Qed.

End PacingExtras.

Lemma stores_are_paced_witness :
  @dailyTelegramAlerts utc _ (traceHost acceptAll acceptWrites countingClock) demoDb []
    = JobReturns demoTraceRun ∧
  pauses 1000 (rs_world demoTraceRun)
  = (pauses 1000 []
     + length (filter (fun p => run_completion (snd p) ≠ Throws)
                 (rs_runs demoTraceRun)))%nat.
Proof.
  split; [reflexivity|].
  apply (@stores_are_paced utc acceptAll acceptWrites countingClock demoDb [] demoTraceRun).
  reflexivity.
Defined.

(** In the run of the example, the store that throws is not followed by a
    pause and the other two are. *)
Example two_pauses_for_three_stores :
  pauses 1000 (rs_world demoTraceRun) = 2%nat ∧ length (rs_runs demoTraceRun) = 3%nat.
Proof. split; reflexivity. Qed.
